(** * open.mp gang zones and Pawn timers: a shallow embedding

    The development follows two source files of the server:

    - [Server/Components/GangZones/gangzone.cpp]: the per-player table of
      gang zone identifiers ([PlayerGangZoneData]) and the gang zone
      component ([GangZonesComponent]) with its per-tick membership sweep;
    - [Server/Components/Pawn/timers.hpp]: the allocator of timer
      identifiers ([PawnTimerImpl::insert]).

    C++ [int] values are integers of [Z]; array slots are addressed by
    list positions; [uint32_t] values are naturals of [N] with the
    wrap-around of [++idx] written out; [float] coordinates are IEEE 754
    values. Methods that change an object return the object afterwards,
    next to their C++ result.

    The headers of the component (gangzone.hpp) and of the SDK (pool
    storage, [UniqueIDArray], the constants of the table) are not among
    the sources. The constants are parameters; what the absent classes do
    follows the written specification of the component, and each such
    definition says so. The first part of the file holds the embedding,
    the second its properties. *)

From Stdlib Require Import ZArith NArith Lia SpecFloat.
From stdpp Require Import base gmap sets list.
From Equations Require Import Equations.

(** ** The per-player identifier table ([PlayerGangZoneData]) *)

Module PlayerGangZoneData.

(** [struct ExternaGangZoneID { int Private; int Global; }] *)
Record ExternaGangZoneID := { Private : Z; Global : Z }.

Section Table.

(** Both constants come from the SDK headers, which are not part of the
    sources at hand; the table code is read with them as parameters. *)
Variable GANG_ZONE_POOL_SIZE : nat.
Variable INVALID_GANG_ZONE_ID : Z.

(** The shape shared by the three search loops of the class:
    [for (int i = 0; i != GANG_ZONE_POOL_SIZE; ++i) if (test usedIDs_[i]) return i;]
    followed by [return INVALID_GANG_ZONE_ID]. [i] is the loop counter and
    [n] the number of iterations left. A [StaticArray] always has
    [GANG_ZONE_POOL_SIZE] elements, so the lookup cannot miss on a
    well-formed table. *)
Fixpoint scan (test : ExternaGangZoneID -> bool)
    (usedIDs_ : list ExternaGangZoneID) (i n : nat) : Z :=
  match n with
  | O => INVALID_GANG_ZONE_ID
  | S n' =>
      match usedIDs_ !! i with
      | Some e => if test e then Z.of_nat i else scan test usedIDs_ (S i) n'
      | None => INVALID_GANG_ZONE_ID
      end
  end.

Definition isUnused (e : ExternaGangZoneID) : bool :=
  (Global e =? INVALID_GANG_ZONE_ID)%Z && (Private e =? INVALID_GANG_ZONE_ID)%Z.

Definition findUnusedID (usedIDs_ : list ExternaGangZoneID) : Z :=
  scan isUnused usedIDs_ 0 GANG_ZONE_POOL_SIZE.

Definition unusedSlot : ExternaGangZoneID :=
  {| Private := INVALID_GANG_ZONE_ID; Global := INVALID_GANG_ZONE_ID |}.

(** [reset]: the loop that clears both fields of every slot. *)
Fixpoint reset_loop (usedIDs_ : list ExternaGangZoneID) (i n : nat)
    : list ExternaGangZoneID :=
  match n with
  | O => usedIDs_
  | S n' => reset_loop (<[i := unusedSlot]> usedIDs_) (S i) n'
  end.

Definition reset (usedIDs_ : list ExternaGangZoneID) : list ExternaGangZoneID :=
  reset_loop usedIDs_ 0 GANG_ZONE_POOL_SIZE.

Definition getExternalID (usedIDs_ : list ExternaGangZoneID) (zoneid : Z) : Z :=
  scan (fun e => (Global e =? zoneid)%Z) usedIDs_ 0 GANG_ZONE_POOL_SIZE.

Definition getInternalID (usedIDs_ : list ExternaGangZoneID) (zoneid : Z) : Z :=
  scan (fun e => (Private e =? zoneid)%Z) usedIDs_ 0 GANG_ZONE_POOL_SIZE.

Definition setGlobal (zoneid : Z) (e : ExternaGangZoneID) : ExternaGangZoneID :=
  {| Private := Private e; Global := zoneid |}.

Definition setPrivate (zoneid : Z) (e : ExternaGangZoneID) : ExternaGangZoneID :=
  {| Private := zoneid; Global := Global e |}.

(** The four mutators return the [int] result together with the table
    they leave behind. *)
Definition reserveExternalID (usedIDs_ : list ExternaGangZoneID) (zoneid : Z)
    : Z * list ExternaGangZoneID :=
  let i := findUnusedID usedIDs_ in
  if (i =? INVALID_GANG_ZONE_ID)%Z then (INVALID_GANG_ZONE_ID, usedIDs_)
  else (i, alter (setGlobal zoneid) (Z.to_nat i) usedIDs_).

Definition reserveInternalID (usedIDs_ : list ExternaGangZoneID) (zoneid : Z)
    : Z * list ExternaGangZoneID :=
  let i := findUnusedID usedIDs_ in
  if (i =? INVALID_GANG_ZONE_ID)%Z then (INVALID_GANG_ZONE_ID, usedIDs_)
  else (i, alter (setPrivate zoneid) (Z.to_nat i) usedIDs_).

Definition releaseExternalID (usedIDs_ : list ExternaGangZoneID) (zoneid : Z)
    : Z * list ExternaGangZoneID :=
  let i := getExternalID usedIDs_ zoneid in
  if (i =? INVALID_GANG_ZONE_ID)%Z then (INVALID_GANG_ZONE_ID, usedIDs_)
  else (i, alter (setGlobal INVALID_GANG_ZONE_ID) (Z.to_nat i) usedIDs_).

Definition releaseInternalID (usedIDs_ : list ExternaGangZoneID) (zoneid : Z)
    : Z * list ExternaGangZoneID :=
  let i := getInternalID usedIDs_ zoneid in
  if (i =? INVALID_GANG_ZONE_ID)%Z then (INVALID_GANG_ZONE_ID, usedIDs_)
  else (i, alter (setPrivate INVALID_GANG_ZONE_ID) (Z.to_nat i) usedIDs_).

(** The constructor runs [reset] on the fresh array. *)
Definition emptyTable : list ExternaGangZoneID :=
  reset (replicate GANG_ZONE_POOL_SIZE unusedSlot).

(** A slot is free when both of its fields hold the sentinel. *)
Definition unused (e : ExternaGangZoneID) : Prop :=
  Global e = INVALID_GANG_ZONE_ID /\ Private e = INVALID_GANG_ZONE_ID.

(** [i] is the lowest position of [usedIDs_] whose slot passes [P]. *)
Definition lowest (P : ExternaGangZoneID -> Prop)
    (usedIDs_ : list ExternaGangZoneID) (i : nat) : Prop :=
  (exists e, usedIDs_ !! i = Some e /\ P e) /\
  forall j e, (j < i)%nat -> usedIDs_ !! j = Some e -> ~ P e.

(** The sentinel is no position of the array. *)
Definition sentinel_off_range : Prop :=
  (INVALID_GANG_ZONE_ID < 0 \/ Z.of_nat GANG_ZONE_POOL_SIZE <= INVALID_GANG_ZONE_ID)%Z.

(** No slot holds a value on both sides. *)
Definition one_sided (usedIDs_ : list ExternaGangZoneID) : Prop :=
  forall i e, usedIDs_ !! i = Some e ->
    Global e = INVALID_GANG_ZONE_ID \/ Private e = INVALID_GANG_ZONE_ID.

(** A run of reservations, as a caller makes them one after the other:
    which of the two functions is called, and with what value. *)
Inductive side := External | Internal.

Definition reserve (usedIDs_ : list ExternaGangZoneID) (request : side * Z)
    : Z * list ExternaGangZoneID :=
  match request.1 with
  | External => reserveExternalID usedIDs_ request.2
  | Internal => reserveInternalID usedIDs_ request.2
  end.

Fixpoint reserve_all (usedIDs_ : list ExternaGangZoneID)
    (requests : list (side * Z)) : list Z * list ExternaGangZoneID :=
  match requests with
  | [] => ([], usedIDs_)
  | request :: rest =>
      let first := reserve usedIDs_ request in
      let later := reserve_all first.2 rest in
      (first.1 :: later.1, later.2)
  end.

End Table.

End PlayerGangZoneData.

(** ** The allocator of timer identifiers ([PawnTimerImpl]) *)

Module PawnTimerImpl.

(** The order on [N] that the loop of [insert] descends along. The
    generator keeps the accessibility proof out of the way of evaluation. *)
#[export] Instance N_lt_WellFounded : WellFounded N.lt :=
  Acc_intro_generator 12 N.lt_wf_0.

Section Timers.

(** [ITimer*]: the handles stored in the pool are opaque to the allocator. *)
Variable ITimer : Type.

(** [UINT_MAX] of [<climits>]; [uint32_t] values are the naturals up to it. *)
Variable UINT_MAX : N.

(** [FlatHashMap<uint32_t, ITimer*> pool; uint32_t idx = 1;] *)
Record PawnTimerImpl := { pool : gmap N ITimer; idx : N }.

(** [++idx] on a [uint32_t]. *)
Definition incr (i : N) : N := ((i + 1) mod (UINT_MAX + 1))%N.

(** How the [while] loop of [insert] ends: it falls through with the
    cursor on a free key, or it hits [return 0] with the cursor where it
    stands. *)
Inductive loop_end := LoopExit (i : N) | LoopReturn0 (i : N).

Definition loop_measure (i : N) (wrappedOnce : bool) : N :=
  if (UINT_MAX <? i)%N then (2 * (UINT_MAX + 1))%N
  else ((UINT_MAX - i) + (if wrappedOnce then 0 else UINT_MAX + 1))%N.

(** A test remembered together with its outcome, for the termination
    argument of the loop. *)
Definition inspect {A : Type} (a : A) : {b : A | a = b} := exist _ a eq_refl.

(** [while (pool.find(idx) != pool.end()) { ... }] *)
Equations? insert_loop (p : gmap N ITimer) (i : N) (wrappedOnce : bool) : loop_end
    by wf (loop_measure i wrappedOnce) N.lt :=
  insert_loop p i wrappedOnce with p !! i := {
    | None => LoopExit i
    | Some _ with inspect (i =? UINT_MAX)%N := {
        | exist _ true _ with wrappedOnce := {
            | true => LoopReturn0 i
            | false => insert_loop p 0%N true }
        | exist _ false _ => insert_loop p (incr i) wrappedOnce } }.
Proof.
  - apply N.eqb_eq in e. subst i. unfold loop_measure.
    rewrite N.ltb_irrefl.
    destruct (UINT_MAX <? 0)%N eqn:E; [apply N.ltb_lt in E; lia | lia].
  - apply N.eqb_neq in e. unfold loop_measure, incr.
    destruct (UINT_MAX <? i)%N eqn:E.
    + assert (Hlt : ((i + 1) mod (UINT_MAX + 1) < UINT_MAX + 1)%N)
        by (apply N.mod_lt; lia).
      generalize dependent ((i + 1) mod (UINT_MAX + 1))%N. intros x Hlt.
      destruct (UINT_MAX <? x)%N eqn:E'; [apply N.ltb_lt in E'; lia |].
      destruct wrappedOnce; lia.
    + apply N.ltb_ge in E.
      rewrite N.mod_small by lia.
      destruct (UINT_MAX <? i + 1)%N eqn:E'; [apply N.ltb_lt in E'; lia |].
      lia.
Qed.

(** [pool.emplace(idx, timer)]: an existing entry is kept. *)
Definition emplace (p : gmap N ITimer) (k : N) (timer : ITimer) : gmap N ITimer :=
  match p !! k with
  | Some _ => p
  | None => <[k := timer]> p
  end.

(** [size_t insert(ITimer* timer)]: the result and the object afterwards. *)
Definition insert (self : PawnTimerImpl) (timer : ITimer) : N * PawnTimerImpl :=
  match insert_loop (pool self) (idx self) false with
  | LoopReturn0 i => (0%N, {| pool := pool self; idx := i |})
  | LoopExit i =>
      let pool' := emplace (pool self) i timer in
      let lastIdx := i in
      (lastIdx,
       {| pool := pool';
          idx := if (i =? UINT_MAX)%N then 0%N else incr i |})
  end.

(** [bool remove(uint32_t id)] *)
Definition remove (self : PawnTimerImpl) (id : N) : bool * PawnTimerImpl :=
  (bool_decide (is_Some (pool self !! id)),
   {| pool := delete id (pool self); idx := idx self |}).

(** Every key and the cursor are [uint32_t] values. *)
Definition well_formed (self : PawnTimerImpl) : Prop :=
  (idx self <= UINT_MAX)%N /\
  forall k, is_Some (pool self !! k) -> (k <= UINT_MAX)%N.

(** [r] is the first free key met when walking up from [i] and, past
    [UINT_MAX], on from 0. *)
Definition first_free_from (p : gmap N ITimer) (i r : N) : Prop :=
  p !! r = None /\ (r <= UINT_MAX)%N /\
  ((i <= r)%N /\ (forall k, (i <= k < r)%N -> is_Some (p !! k)) \/
   (r < i)%N /\ (forall k, (i <= k <= UINT_MAX)%N -> is_Some (p !! k)) /\
     (forall k, (k < r)%N -> is_Some (p !! k))).

(** Every [uint32_t] key has an entry. *)
Definition full (p : gmap N ITimer) : Prop :=
  forall k, (k <= UINT_MAX)%N -> is_Some (p !! k).

(** What the loop has established when it ends, started with cursor [i]
    and flag [wrappedOnce]. *)
Definition loop_post (p : gmap N ITimer) (i : N) (wrappedOnce : bool)
    (r : loop_end) : Prop :=
  match r with
  | LoopExit r =>
      p !! r = None /\ (r <= UINT_MAX)%N /\
      ((i <= r)%N /\ (forall k, (i <= k < r)%N -> is_Some (p !! k)) \/
       wrappedOnce = false /\ (r < i)%N /\
         (forall k, (i <= k <= UINT_MAX)%N -> is_Some (p !! k)) /\
         (forall k, (k < r)%N -> is_Some (p !! k)))
  | LoopReturn0 r =>
      r = UINT_MAX /\
      (forall k, (i <= k <= UINT_MAX)%N -> is_Some (p !! k)) /\
      (wrappedOnce = false -> full p)
  end.

(** The object as constructed: an empty pool, and [idx = 1]. *)
Definition initial : PawnTimerImpl := {| pool := ∅; idx := 1 |}.

(** [insert] called for each timer of a list in turn: the results in
    order, and the object afterwards. *)
Fixpoint insert_all (self : PawnTimerImpl) (timers : list ITimer)
    : list N * PawnTimerImpl :=
  match timers with
  | [] => ([], self)
  | timer :: rest =>
      let first := insert self timer in
      let later := insert_all first.2 rest in
      (first.1 :: later.1, later.2)
  end.

End Timers.

Arguments pool {ITimer} _.
Arguments idx {ITimer} _.
Arguments LoopExit _%_N.
Arguments LoopReturn0 _%_N.

End PawnTimerImpl.

(** ** The gang zone component ([GangZonesComponent]) *)

Module GangZones.

(** *** Coordinates

    Positions are C++ [float]s. They are read as IEEE 754 values
    ([spec_float]: zeros, infinities, NaN and finite numbers), with the
    comparisons of the standard: every comparison with a NaN is false. *)

(** [a <= b] *)
Definition float_le (a b : spec_float) : bool := SFleb a b.

(** [a >= b] *)
Definition float_ge (a b : spec_float) : bool :=
  match SFcompare a b with
  | Some Gt | Some Eq => true
  | _ => false
  end.

Module Vector2.
Record t := mk { x : spec_float; y : spec_float }.
End Vector2.

Module Vector3.
Record t := mk { x : spec_float; y : spec_float; z : spec_float }.
End Vector3.

(** [struct GangZonePos { Vector2 min; Vector2 max; }] *)
Module GangZonePos.
Record t := mk { min : Vector2.t; max : Vector2.t }.
End GangZonePos.

(** What [onUpdate] reads of an [IPlayer]. *)
Record IPlayer := { getID : Z; getPosition : Vector3.t }.

(** The test of [onUpdate]:
    [playerPos.x >= pos.min.x && playerPos.x <= pos.max.x &&
     playerPos.y >= pos.min.y && playerPos.y <= pos.max.y]. *)
Definition isPlayerInZoneArea (playerPos : Vector3.t) (pos : GangZonePos.t) : bool :=
  float_ge (Vector3.x playerPos) (Vector2.x (GangZonePos.min pos))
  && float_le (Vector3.x playerPos) (Vector2.x (GangZonePos.max pos))
  && float_ge (Vector3.y playerPos) (Vector2.y (GangZonePos.min pos))
  && float_le (Vector3.y playerPos) (Vector2.y (GangZonePos.max pos)).

(** [lo <= v <= hi] in the IEEE order, both ends included. *)
Definition within (lo v hi : spec_float) : Prop :=
  SFleb lo v = true /\ SFleb v hi = true.

(** *** Zones

    Modelled from the spec: the [GangZone] class of gangzone.hpp is not
    among the sources. A zone has its rectangle, a visibility predicate
    per actor (the set of players it is shown for) and the set of players
    recorded as inside. *)
Record GangZone := {
  pos : GangZonePos.t;
  shownFor_ : gset Z;
  playersInside_ : gset Z
}.

(** Modelled from the spec: [GangZone::isShownForPlayer], the visibility
    predicate over the actor. *)
Definition isShownForPlayer (zone : GangZone) (player : IPlayer) : bool :=
  bool_decide (getID player ∈ shownFor_ zone).

(** Modelled from the spec: [GangZone::isPlayerInside], the recorded
    membership flag of the (zone, actor) pair; absence means outside. *)
Definition isPlayerInside (zone : GangZone) (player : IPlayer) : bool :=
  bool_decide (getID player ∈ playersInside_ zone).

(** Modelled from the spec: [GangZone::setPlayerInside], which records
    the membership flag of the pair. *)
Definition setPlayerInside (zone : GangZone) (player : IPlayer) (status : bool)
    : GangZone :=
  {| pos := pos zone;
     shownFor_ := shownFor_ zone;
     playersInside_ :=
       if status then playersInside_ zone ∪ {[getID player]}
       else playersInside_ zone ∖ {[getID player]} |}.

(** Modelled from the spec: [GangZone::destream], which clears the
    active memberships of a zone about to be released. *)
Definition destream (zone : GangZone) : GangZone :=
  {| pos := pos zone; shownFor_ := shownFor_ zone; playersInside_ := ∅ |}.


(** *** The pool

    Modelled from the spec: [MarkedPoolStorage] of the SDK is not among
    the sources. Each slot has its entity when occupied, a lock counter
    and a pending-destroy flag. *)
Record Slot := { entity : option GangZone; refs : nat; deleted : bool }.

Definition emptySlot : Slot := {| entity := None; refs := 0; deleted := false |}.

(** The slot an [int] index addresses, if it is in range. *)
Definition slot_of (slots : list Slot) (index : Z) : option Slot :=
  if (index <? 0)%Z then None else slots !! Z.to_nat index.

(** Modelled from the spec: [get(id)], null for an id outside the range
    or not currently occupied. *)
Definition storage_get (slots : list Slot) (index : Z) : option GangZone :=
  match slot_of slots index with
  | Some s => entity s
  | None => None
  end.

(** Modelled from the spec: [lock(id)] increments the lock counter of the
    slot and does nothing for an invalid id. *)
Definition storage_lock (slots : list Slot) (index : Z) : list Slot :=
  match storage_get slots index with
  | Some _ =>
      alter (fun s => {| entity := entity s; refs := S (refs s); deleted := deleted s |})
        (Z.to_nat index) slots
  | None => slots
  end.

(** Physical destruction: the slot is vacated. *)
Definition storage_destroy (slots : list Slot) (index : Z) : list Slot :=
  <[Z.to_nat index := emptySlot]> slots.

(** Modelled from the spec: [unlock(id)] decrements the counter; when it
    reaches 0 on a slot pending destruction the entity is destroyed and
    the result is true; with the counter already at 0 nothing happens. *)
Definition storage_unlock (slots : list Slot) (index : Z) : bool * list Slot :=
  match slot_of slots index with
  | Some s =>
      match refs s with
      | O => (false, slots)
      | S n =>
          match n, deleted s with
          | O, true => (true, storage_destroy slots index)
          | _, _ =>
              (false,
               <[Z.to_nat index :=
                   {| entity := entity s; refs := n; deleted := deleted s |}]> slots)
          end
      end
  | None => (false, slots)
  end.

(** Modelled from the spec: [release(id)] destroys at once when the lock
    counter is 0 and otherwise marks the slot pending-destroy. *)
Definition storage_release (slots : list Slot) (index : Z) : list Slot :=
  match slot_of slots index with
  | Some s =>
      match entity s, refs s with
      | None, _ => slots
      | Some _, O => storage_destroy slots index
      | Some _, S _ =>
          <[Z.to_nat index :=
              {| entity := entity s; refs := refs s; deleted := true |}]> slots
      end
  | None => slots
  end.

(** A method called on the zone object that lives in slot [index]. *)
Definition update_zone (slots : list Slot) (index : Z) (f : GangZone -> GangZone)
    : list Slot :=
  if (index <? 0)%Z then slots
  else alter (fun s => {| entity := f <$> entity s; refs := refs s; deleted := deleted s |})
         (Z.to_nat index) slots.

(** *** The checking list

    Modelled from the spec: [UniqueIDArray] of the SDK is not among the
    sources. The checking list is the set of the ids that opted into the
    per-tick check. *)
Module UniqueIDArray.

(** Modelled from the spec: [valid(index)], the membership test. *)
Definition valid (ids : gset Z) (index : Z) : bool := bool_decide (index ∈ ids).

(** Modelled from the spec: [add(index, data)]; adding twice is idempotent. *)
Definition add (ids : gset Z) (index : Z) : gset Z := ids ∪ {[index]}.

(** Modelled from the spec: [remove(index, data)]; removing an id that is
    not present does nothing. *)
Definition remove (ids : gset Z) (index : Z) : gset Z := ids ∖ {[index]}.

(** Modelled from the spec: [entries()], the ids in the order a sweep
    visits them; the order is arbitrary, and fixed for a given set. *)
Definition entries (ids : gset Z) : list Z := elements ids.

End UniqueIDArray.

(** *** The component *)

(** [MarkedPoolStorage<GangZone, ...> storage] and
    [UniqueIDArray<IGangZone, ...> checkingList]. *)
Record GangZonesComponent := {
  storage : list Slot;
  checkingList : gset Z
}.

(** What [eventDispatcher.dispatch] hands to the subscribers: the handler
    called, the player, and the zone as it is at the time of the call,
    with its id. The subscribers are outside the component: a dispatch is
    recorded, in order, and no handler is run. *)
Inductive GangZoneEvent :=
  | onPlayerEnterGangZone (player : IPlayer) (zoneID : Z) (zone : GangZone)
  | onPlayerLeaveGangZone (player : IPlayer) (zoneID : Z) (zone : GangZone).

Definition get (self : GangZonesComponent) (index : Z) : option GangZone :=
  storage_get (storage self) index.

Definition lock (self : GangZonesComponent) (index : Z) : GangZonesComponent :=
  {| storage := storage_lock (storage self) index;
     checkingList := checkingList self |}.

Definition unlock (self : GangZonesComponent) (index : Z)
    : bool * GangZonesComponent :=
  ((storage_unlock (storage self) index).1,
   {| storage := (storage_unlock (storage self) index).2;
      checkingList := checkingList self |}).

Definition useGangZoneCheck (self : GangZonesComponent) (zoneID : Z)
    (enable : bool) : GangZonesComponent :=
  {| storage := storage self;
     checkingList :=
       if enable then UniqueIDArray.add (checkingList self) zoneID
       else if UniqueIDArray.valid (checkingList self) zoneID
            then UniqueIDArray.remove (checkingList self) zoneID
            else checkingList self |}.

(** [release]: for a live zone, leave the checking list, [destream],
    then [storage.release(index, false)]. *)
Definition release (self : GangZonesComponent) (index : Z) : GangZonesComponent :=
  match get self index with
  | Some zone =>
      let checkingList' :=
        if UniqueIDArray.valid (checkingList self) index
        then UniqueIDArray.remove (checkingList self) index
        else checkingList self in
      let destreamed := update_zone (storage self) index destream in
      {| storage := storage_release destreamed index;
         checkingList := checkingList' |}
  | None => self
  end.

(** Modelled from the spec: [ScopedPoolReleaseLock], the guard that
    holds the lock of the pool on an entry for the length of a block: the
    counter goes up when the block is entered and down when it is left. *)
Definition ScopedPoolReleaseLock (self : GangZonesComponent) (index : Z)
    (block : GangZonesComponent -> list GangZoneEvent * GangZonesComponent)
    : list GangZoneEvent * GangZonesComponent :=
  let inside := block (lock self index) in
  (inside.1, (unlock inside.2 index).2).

(** The two transition branches of [onUpdate] have one shape: under the
    scoped lock, record the flag and dispatch with the locked entry. *)
Definition transition (self : GangZonesComponent) (player : IPlayer) (index : Z)
    (gangzone : GangZone) (status : bool)
    (handler : IPlayer -> Z -> GangZone -> GangZoneEvent)
    : list GangZoneEvent * GangZonesComponent :=
  ScopedPoolReleaseLock self index (fun locked =>
    let marked :=
      {| storage := update_zone (storage locked) index
                      (fun zone => setPlayerInside zone player status);
         checkingList := checkingList locked |} in
    ([handler player index (setPlayerInside gangzone player status)], marked)).

(** The body of the [for] loop of [onUpdate], for one entry of the
    checking list. An entry whose zone is gone is skipped. *)
Definition onUpdate_entry (self : GangZonesComponent) (player : IPlayer)
    (playerPos : Vector3.t) (index : Z)
    : list GangZoneEvent * GangZonesComponent :=
  match get self index with
  | None => ([], self)
  | Some gangzone =>
      if negb (isShownForPlayer gangzone player) then ([], self)
      else
        let isPlayerInInsideList := isPlayerInside gangzone player in
        let inArea := isPlayerInZoneArea playerPos (pos gangzone) in
        if inArea && negb isPlayerInInsideList then
          transition self player index gangzone true onPlayerEnterGangZone
        else if negb inArea && isPlayerInInsideList then
          transition self player index gangzone false onPlayerLeaveGangZone
        else ([], self)
  end.

Fixpoint onUpdate_loop (self : GangZonesComponent) (player : IPlayer)
    (playerPos : Vector3.t) (entries : list Z)
    : list GangZoneEvent * GangZonesComponent :=
  match entries with
  | [] => ([], self)
  | index :: rest =>
      let step := onUpdate_entry self player playerPos index in
      let tail := onUpdate_loop step.2 player playerPos rest in
      (step.1 ++ tail.1, tail.2)
  end.

(** [onUpdate]: the events dispatched during the sweep, in order, and
    the component afterwards (the C++ function always returns [true]). *)
Definition onUpdate (self : GangZonesComponent) (player : IPlayer)
    : list GangZoneEvent * GangZonesComponent :=
  onUpdate_loop self player (getPosition player)
    (UniqueIDArray.entries (checkingList self)).


(** *** Reading the dispatched events *)

Definition event_player (e : GangZoneEvent) : IPlayer :=
  match e with
  | onPlayerEnterGangZone player _ _ | onPlayerLeaveGangZone player _ _ => player
  end.

Definition event_zoneID (e : GangZoneEvent) : Z :=
  match e with
  | onPlayerEnterGangZone _ zoneID _ | onPlayerLeaveGangZone _ zoneID _ => zoneID
  end.

(** The events about one (actor, zone) pair. *)
Definition pair_events (pid zoneID : Z) (events : list GangZoneEvent)
    : list GangZoneEvent :=
  filter (fun e => getID (event_player e) = pid /\ event_zoneID e = zoneID) events.

(** The two-state machine of a (zone, actor) pair, as one sweep drives
    it: the zone after the sweep has visited it, and what was dispatched. *)
Definition pair_next (zone : GangZone) (player : IPlayer) : GangZone :=
  let inArea := isPlayerInZoneArea (getPosition player) (pos zone) in
  if negb (isShownForPlayer zone player) then zone
  else if inArea && negb (isPlayerInside zone player)
       then setPlayerInside zone player true
  else if negb inArea && isPlayerInside zone player
       then setPlayerInside zone player false
  else zone.

Definition pair_dispatch (zone : GangZone) (player : IPlayer) (zoneID : Z)
    : list GangZoneEvent :=
  let inArea := isPlayerInZoneArea (getPosition player) (pos zone) in
  if negb (isShownForPlayer zone player) then []
  else if inArea && negb (isPlayerInside zone player)
       then [onPlayerEnterGangZone player zoneID (setPlayerInside zone player true)]
  else if negb inArea && isPlayerInside zone player
       then [onPlayerLeaveGangZone player zoneID (setPlayerInside zone player false)]
  else [].


(** A slot pending destruction is a locked one. *)
Definition pending_is_locked (s : Slot) : Prop :=
  deleted s = true -> refs s <> 0%nat.

(** Consecutive ticks for one actor: the player as it stands at each
    tick, and the events each sweep dispatched. *)
Fixpoint ticks (self : GangZonesComponent) (players : list IPlayer)
    : list (list GangZoneEvent) * GangZonesComponent :=
  match players with
  | [] => ([], self)
  | player :: rest =>
      let sweep := onUpdate self player in
      let later := ticks sweep.2 rest in
      (sweep.1 :: later.1, later.2)
  end.

(** The machine of one pair run over consecutive ticks. *)
Fixpoint pair_run (zone : GangZone) (players : list IPlayer) (zoneID : Z)
    : list (list GangZoneEvent) :=
  match players with
  | [] => []
  | player :: rest =>
      pair_dispatch zone player zoneID :: pair_run (pair_next zone player) rest zoneID
  end.

(** *** A small world for the examples

    One zone over the square from (0, 0) to (4, 4), shown for player 7,
    checked every tick; the numbers are binary32 values. *)

Definition f0 : spec_float := S754_zero false.
Definition f1 : spec_float := S754_finite false 8388608 (-23).
Definition f4 : spec_float := S754_finite false 8388608 (-21).
Definition f32 : spec_float := S754_finite false 8388608 (-18).

Definition square : GangZonePos.t :=
  GangZonePos.mk (Vector2.mk f0 f0) (Vector2.mk f4 f4).

Definition example_zone : GangZone :=
  {| pos := square; shownFor_ := {[7%Z]}; playersInside_ := ∅ |}.

Definition example_component : GangZonesComponent :=
  {| storage := [ {| entity := Some example_zone; refs := 0; deleted := false |} ];
     checkingList := {[0%Z]} |}.

Definition player7 (position : Vector3.t) : IPlayer :=
  {| getID := 7; getPosition := position |}.

Definition inside_square : Vector3.t := Vector3.mk f1 f1 f32.
Definition outside_square : Vector3.t := Vector3.mk f32 f1 f0.

(** What the sweep of [player] dispatches at the entry [zoneID] of the
    checking list, read off the component as it stands. *)
Definition zone_dispatch (self : GangZonesComponent) (player : IPlayer) (zoneID : Z)
    : list GangZoneEvent :=
  match get self zoneID with
  | Some zone => pair_dispatch zone player zoneID
  | None => []
  end.

(** Every slot of the pool that is pending destruction is locked. *)
Definition pool_ok (self : GangZonesComponent) : Prop :=
  forall i s, slot_of (storage self) i = Some s -> pending_is_locked s.

(** *** The log of what was dispatched

    The events of consecutive sweeps, in the order of dispatch. *)




(** *** Subscribers

    Modelled from the spec: the event dispatcher of the SDK and the
    subscribers registered with it are not among the sources. A handler
    runs in the middle of the sweep, inside the scoped lock, and may call
    back into the component; a subscriber is read as what its handler does
    to the component. [transition] and [onUpdate] above are the sweep with
    no subscriber registered; the definitions below run the subscribers
    where the source dispatches. *)
Definition Subscriber : Type :=
  GangZoneEvent -> GangZonesComponent -> GangZonesComponent.

(** Modelled from the spec: [eventDispatcher.dispatch], the fan-out to
    the subscribers in the order of their registration. *)
Definition dispatch (subscribers : list Subscriber) (event : GangZoneEvent)
    (self : GangZonesComponent) : GangZonesComponent :=
  foldl (fun current subscriber => subscriber event current) self subscribers.

(** A subscriber that leaves the component as it finds it. *)
Definition inert (subscriber : Subscriber) : Prop :=
  forall event self, subscriber event self = self.

(** A subscriber that only takes note of the event. *)
Definition idle : Subscriber := fun _ self => self.


(** What a transition branch of [onUpdate] does before it dispatches:
    on the locked component, the flag of the player is recorded. *)
Definition transition_marked (locked : GangZonesComponent) (player : IPlayer)
    (index : Z) (status : bool) : GangZonesComponent :=
  {| storage := update_zone (storage locked) index
                  (fun zone => setPlayerInside zone player status);
     checkingList := checkingList locked |}.

(** A transition branch of [onUpdate] with the subscribers run where the
    event is dispatched: under the scoped lock, after the flag has been
    recorded, before the lock is dropped. *)
Definition transition_with (subscribers : list Subscriber)
    (self : GangZonesComponent) (player : IPlayer) (index : Z)
    (gangzone : GangZone) (status : bool)
    (handler : IPlayer -> Z -> GangZone -> GangZoneEvent)
    : list GangZoneEvent * GangZonesComponent :=
  ScopedPoolReleaseLock self index (fun locked =>
    let marked := transition_marked locked player index status in
    let event := handler player index (setPlayerInside gangzone player status) in
    ([event], dispatch subscribers event marked)).

(** The body of the loop of [onUpdate] with the subscribers run. *)
Definition onUpdate_entry_with (subscribers : list Subscriber)
    (self : GangZonesComponent) (player : IPlayer)
    (playerPos : Vector3.t) (index : Z)
    : list GangZoneEvent * GangZonesComponent :=
  match get self index with
  | None => ([], self)
  | Some gangzone =>
      if negb (isShownForPlayer gangzone player) then ([], self)
      else
        let isPlayerInInsideList := isPlayerInside gangzone player in
        let inArea := isPlayerInZoneArea playerPos (pos gangzone) in
        if inArea && negb isPlayerInInsideList then
          transition_with subscribers self player index gangzone true
            onPlayerEnterGangZone
        else if negb inArea && isPlayerInInsideList then
          transition_with subscribers self player index gangzone false
            onPlayerLeaveGangZone
        else ([], self)
  end.

(** Modelled from the spec: the sweep walks the checking list as it stood
    when the sweep began; what a handler adds to or removes from the list
    takes effect with the next sweep. *)
Fixpoint onUpdate_loop_with (subscribers : list Subscriber)
    (self : GangZonesComponent) (player : IPlayer)
    (playerPos : Vector3.t) (entries : list Z)
    : list GangZoneEvent * GangZonesComponent :=
  match entries with
  | [] => ([], self)
  | index :: rest =>
      let step := onUpdate_entry_with subscribers self player playerPos index in
      let tail := onUpdate_loop_with subscribers step.2 player playerPos rest in
      (step.1 ++ tail.1, tail.2)
  end.

(** [onUpdate] with the subscribers of the dispatcher run. *)
Definition onUpdate_with (subscribers : list Subscriber)
    (self : GangZonesComponent) (player : IPlayer)
    : list GangZoneEvent * GangZonesComponent :=
  onUpdate_loop_with subscribers self player (getPosition player)
    (UniqueIDArray.entries (checkingList self)).

(** *** Proof steps that recur *)

(** The branches of [onUpdate_entry] for a zone [z]: not shown, enter,
    leave, no change. *)
Ltac entry_cases z player playerPos :=
  destruct (negb (isShownForPlayer z player));
  [| cbv zeta;
     destruct (isPlayerInZoneArea playerPos (pos z) && negb (isPlayerInside z player));
     [| destruct (negb (isPlayerInZoneArea playerPos (pos z)) && isPlayerInside z player)]].

(** A slot lemma read at the index it was stated for. *)
Ltac same_index :=
  match goal with
  | |- context [decide (?i = ?i)] =>
      destruct (decide (i = i)) as [_|]; [|congruence]
  end.

End GangZones.

(** * Properties *)

(** ** The identifier table *)

Module PlayerGangZoneDataSpec.
Import PlayerGangZoneData.

Section Table.

Variable GANG_ZONE_POOL_SIZE : nat.
Variable INVALID_GANG_ZONE_ID : Z.

Local Abbreviation scan := (scan INVALID_GANG_ZONE_ID).
Local Abbreviation unused := (unused INVALID_GANG_ZONE_ID).
Local Abbreviation unusedSlot := (unusedSlot INVALID_GANG_ZONE_ID).
Local Abbreviation isUnused := (isUnused INVALID_GANG_ZONE_ID).
Local Abbreviation findUnusedID := (findUnusedID GANG_ZONE_POOL_SIZE INVALID_GANG_ZONE_ID).
Local Abbreviation getExternalID := (getExternalID GANG_ZONE_POOL_SIZE INVALID_GANG_ZONE_ID).
Local Abbreviation getInternalID := (getInternalID GANG_ZONE_POOL_SIZE INVALID_GANG_ZONE_ID).
Local Abbreviation reserveExternalID := (reserveExternalID GANG_ZONE_POOL_SIZE INVALID_GANG_ZONE_ID).
Local Abbreviation reserveInternalID := (reserveInternalID GANG_ZONE_POOL_SIZE INVALID_GANG_ZONE_ID).
Local Abbreviation releaseExternalID := (releaseExternalID GANG_ZONE_POOL_SIZE INVALID_GANG_ZONE_ID).
Local Abbreviation releaseInternalID := (releaseInternalID GANG_ZONE_POOL_SIZE INVALID_GANG_ZONE_ID).
Local Abbreviation reset := (reset GANG_ZONE_POOL_SIZE INVALID_GANG_ZONE_ID).
Local Abbreviation emptyTable := (emptyTable GANG_ZONE_POOL_SIZE INVALID_GANG_ZONE_ID).
Local Abbreviation sentinel_off_range :=
  (sentinel_off_range GANG_ZONE_POOL_SIZE INVALID_GANG_ZONE_ID).

(** *** The search loop *)

Lemma scan_found test (t : list ExternaGangZoneID) n : forall i k e,
  (k < n)%nat -> t !! (i + k)%nat = Some e -> test e = true ->
  (forall j e', (j < k)%nat -> t !! (i + j)%nat = Some e' -> test e' = false) ->
  scan test t i n = Z.of_nat (i + k).
Proof.
  induction n as [|n IH]; intros i k e Hk Hlook Htest Hbelow; [lia|].
  destruct k as [|k]; simpl.
  - rewrite Nat.add_0_r in *. now rewrite Hlook, Htest.
  - destruct (t !! i) as [e0|] eqn:E0.
    + rewrite (Hbelow 0%nat e0) by (rewrite ?Nat.add_0_r; auto with lia).
      replace (i + S k)%nat with (S i + k)%nat in * by lia.
      apply (IH (S i) k e); auto with lia.
      intros j e' Hj Hl. apply (Hbelow (S j) e'); [lia|].
      now replace (i + S j)%nat with (S i + j)%nat by lia.
    + apply lookup_ge_None in E0. apply lookup_lt_Some in Hlook. lia.
Qed.

Lemma scan_missing test (t : list ExternaGangZoneID) n : forall i,
  (forall j e, (j < n)%nat -> t !! (i + j)%nat = Some e -> test e = false) ->
  scan test t i n = INVALID_GANG_ZONE_ID.
Proof.
  induction n as [|n IH]; intros i Hall; simpl; [reflexivity|].
  destruct (t !! i) as [e0|] eqn:E0; [|reflexivity].
  rewrite (Hall 0%nat e0) by (rewrite ?Nat.add_0_r; auto with lia).
  apply IH. intros j e Hj Hl. apply (Hall (S j) e); [lia|].
  now replace (i + S j)%nat with (S i + j)%nat by lia.
Qed.

(** On a well-formed table a search returns the lowest position whose
    slot passes the test. *)
Lemma scan_lowest test (P : ExternaGangZoneID -> Prop)
    (t : list ExternaGangZoneID) i :
  (forall e, test e = true <-> P e) ->
  length t = GANG_ZONE_POOL_SIZE ->
  lowest P t i ->
  scan test t 0 GANG_ZONE_POOL_SIZE = Z.of_nat i.
Proof.
  intros Htest Hlen [[e [Hl HP]] Hlow].
  apply (scan_found test t GANG_ZONE_POOL_SIZE 0 i e); simpl; auto.
  - apply lookup_lt_Some in Hl. lia.
  - now apply Htest.
  - intros j e' Hj Hl'. specialize (Hlow j e' Hj Hl').
    destruct (test e') eqn:E; [|reflexivity]. apply Htest in E. tauto.
Qed.

Lemma scan_nowhere test (P : ExternaGangZoneID -> Prop)
    (t : list ExternaGangZoneID) :
  (forall e, test e = true <-> P e) ->
  (forall i e, t !! i = Some e -> ~ P e) ->
  scan test t 0 GANG_ZONE_POOL_SIZE = INVALID_GANG_ZONE_ID.
Proof.
  intros Htest Hnone. apply scan_missing. simpl. intros j e _ Hl.
  destruct (test e) eqn:E; [|reflexivity].
  apply Htest in E. now apply Hnone in Hl.
Qed.

Lemma isUnused_spec e : isUnused e = true <-> unused e.
Proof.
  unfold PlayerGangZoneData.isUnused, PlayerGangZoneData.unused.
  rewrite andb_true_iff, !Z.eqb_eq. tauto.
Qed.

Lemma position_not_sentinel (t : list ExternaGangZoneID) i e :
  sentinel_off_range -> length t = GANG_ZONE_POOL_SIZE -> t !! i = Some e ->
  (Z.of_nat i =? INVALID_GANG_ZONE_ID)%Z = false.
Proof.
  intros Hoff Hlen Hl. apply lookup_lt_Some in Hl.
  apply Z.eqb_neq. unfold PlayerGangZoneData.sentinel_off_range in Hoff. lia.
Qed.

Lemma alter_at (f : ExternaGangZoneID -> ExternaGangZoneID)
    (t : list ExternaGangZoneID) i e :
  t !! i = Some e -> alter f i t = <[i := f e]> t.
Proof.
  intros Hl. apply list_eq. intros j.
  destruct (decide (i = j)) as [->|Hne].
  - rewrite list_lookup_alter_eq, Hl.
    rewrite list_lookup_insert_eq by (eapply lookup_lt_Some; eauto). reflexivity.
  - now rewrite list_lookup_alter_ne, list_lookup_insert_ne.
Qed.

(** *** [reset] *)

Lemma reset_loop_replicate n : forall (t : list ExternaGangZoneID) i,
  (i + n)%nat = length t ->
  (forall j e, (j < i)%nat -> t !! j = Some e -> e = unusedSlot) ->
  reset_loop INVALID_GANG_ZONE_ID t i n = replicate (length t) unusedSlot.
Proof.
  induction n as [|n IH]; intros t i Hlen Hdone; simpl.
  - apply list_eq. intros j. destruct (t !! j) as [e|] eqn:E.
    + assert (Hj : (j < i)%nat) by (apply lookup_lt_Some in E; lia).
      rewrite (Hdone j e Hj E).
      symmetry. apply lookup_replicate_2. lia.
    + symmetry. apply lookup_ge_None. rewrite length_replicate.
      now apply lookup_ge_None in E.
  - rewrite (IH (<[i := unusedSlot]> t) (S i)).
    + now rewrite length_insert.
    + rewrite length_insert. lia.
    + intros j e Hj Hl. destruct (decide (i = j)) as [->|Hne].
      * rewrite list_lookup_insert_eq in Hl by lia. congruence.
      * rewrite list_lookup_insert_ne in Hl by done. apply (Hdone j e); [lia|done].
Qed.

Lemma reset_replicate (t : list ExternaGangZoneID) :
  length t = GANG_ZONE_POOL_SIZE ->
  reset t = replicate GANG_ZONE_POOL_SIZE unusedSlot.
Proof.
  intros Hlen. unfold PlayerGangZoneData.reset.
  rewrite reset_loop_replicate; [now rewrite Hlen | lia | intros; lia].
Qed.

Lemma emptyTable_replicate :
  emptyTable = replicate GANG_ZONE_POOL_SIZE unusedSlot.
Proof.
  unfold PlayerGangZoneData.emptyTable. apply reset_replicate, length_replicate.
Qed.

(** *** The lookups and the mutators, position by position *)

Lemma findUnusedID_lowest (t : list ExternaGangZoneID) i :
  length t = GANG_ZONE_POOL_SIZE -> lowest unused t i ->
  findUnusedID t = Z.of_nat i.
Proof. intros. eapply scan_lowest; eauto using isUnused_spec. Qed.

Lemma findUnusedID_full (t : list ExternaGangZoneID) :
  (forall i e, t !! i = Some e -> ~ unused e) ->
  findUnusedID t = INVALID_GANG_ZONE_ID.
Proof. intros. eapply scan_nowhere; eauto using isUnused_spec. Qed.

Lemma getExternalID_lowest (t : list ExternaGangZoneID) v i :
  length t = GANG_ZONE_POOL_SIZE -> lowest (fun e => Global e = v) t i ->
  getExternalID t v = Z.of_nat i.
Proof.
  intros. eapply scan_lowest; eauto. intros e. cbv beta. apply Z.eqb_eq.
Qed.

Lemma getInternalID_lowest (t : list ExternaGangZoneID) v i :
  length t = GANG_ZONE_POOL_SIZE -> lowest (fun e => Private e = v) t i ->
  getInternalID t v = Z.of_nat i.
Proof.
  intros. eapply scan_lowest; eauto. intros e. cbv beta. apply Z.eqb_eq.
Qed.

Lemma getExternalID_absent (t : list ExternaGangZoneID) v :
  (forall i e, t !! i = Some e -> Global e <> v) ->
  getExternalID t v = INVALID_GANG_ZONE_ID.
Proof.
  intros. eapply scan_nowhere with (P := fun e => Global e = v); eauto.
  intros e. cbv beta. apply Z.eqb_eq.
Qed.

Lemma getInternalID_absent (t : list ExternaGangZoneID) v :
  (forall i e, t !! i = Some e -> Private e <> v) ->
  getInternalID t v = INVALID_GANG_ZONE_ID.
Proof.
  intros. eapply scan_nowhere with (P := fun e => Private e = v); eauto.
  intros e. cbv beta. apply Z.eqb_eq.
Qed.

(** A mutator that found position [i] writes exactly that slot. *)
Lemma write_at (f : ExternaGangZoneID -> ExternaGangZoneID)
    (t : list ExternaGangZoneID) i e :
  sentinel_off_range -> length t = GANG_ZONE_POOL_SIZE -> t !! i = Some e ->
  (if (Z.of_nat i =? INVALID_GANG_ZONE_ID)%Z then (INVALID_GANG_ZONE_ID, t)
   else (Z.of_nat i, alter f (Z.to_nat (Z.of_nat i)) t))
  = (Z.of_nat i, <[i := f e]> t).
Proof.
  intros Hoff Hlen Hl.
  rewrite (position_not_sentinel t i e Hoff Hlen Hl), Nat2Z.id.
  now rewrite (alter_at f t i e Hl).
Qed.

Lemma reserveExternalID_at (t : list ExternaGangZoneID) v i e :
  sentinel_off_range -> length t = GANG_ZONE_POOL_SIZE ->
  lowest unused t i -> t !! i = Some e ->
  reserveExternalID t v = (Z.of_nat i, <[i := setGlobal v e]> t).
Proof.
  intros Hoff Hlen Hlow Hl. unfold PlayerGangZoneData.reserveExternalID.
  cbv zeta. rewrite (findUnusedID_lowest t i Hlen Hlow). now apply write_at.
Qed.

Lemma reserveInternalID_at (t : list ExternaGangZoneID) v i e :
  sentinel_off_range -> length t = GANG_ZONE_POOL_SIZE ->
  lowest unused t i -> t !! i = Some e ->
  reserveInternalID t v = (Z.of_nat i, <[i := setPrivate v e]> t).
Proof.
  intros Hoff Hlen Hlow Hl. unfold PlayerGangZoneData.reserveInternalID.
  cbv zeta. rewrite (findUnusedID_lowest t i Hlen Hlow). now apply write_at.
Qed.

Lemma releaseExternalID_at (t : list ExternaGangZoneID) v i e :
  sentinel_off_range -> length t = GANG_ZONE_POOL_SIZE ->
  lowest (fun e => Global e = v) t i -> t !! i = Some e ->
  releaseExternalID t v = (Z.of_nat i, <[i := setGlobal INVALID_GANG_ZONE_ID e]> t).
Proof.
  intros Hoff Hlen Hlow Hl. unfold PlayerGangZoneData.releaseExternalID.
  cbv zeta. rewrite (getExternalID_lowest t v i Hlen Hlow). now apply write_at.
Qed.

Lemma releaseInternalID_at (t : list ExternaGangZoneID) v i e :
  sentinel_off_range -> length t = GANG_ZONE_POOL_SIZE ->
  lowest (fun e => Private e = v) t i -> t !! i = Some e ->
  releaseInternalID t v = (Z.of_nat i, <[i := setPrivate INVALID_GANG_ZONE_ID e]> t).
Proof.
  intros Hoff Hlen Hlow Hl. unfold PlayerGangZoneData.releaseInternalID.
  cbv zeta. rewrite (getInternalID_lowest t v i Hlen Hlow). now apply write_at.
Qed.

Lemma replicate_two (n : nat) (x : ExternaGangZoneID) :
  (2 <= n)%nat -> replicate n x = x :: x :: replicate (n - 2) x.
Proof.
  destruct n as [|[|n]]; [lia | lia |]. intros _. simpl.
  now rewrite Nat.sub_0_r.
Qed.

Lemma lowest_unused_head (e : ExternaGangZoneID) (t : list ExternaGangZoneID) :
  unused e -> lowest unused (e :: t) 0.
Proof.
  intros He. split; [exists e; split; [reflexivity | exact He] | intros; lia].
Qed.

Lemma lowest_unused_second (e0 e1 : ExternaGangZoneID) (t : list ExternaGangZoneID) :
  ~ unused e0 -> unused e1 -> lowest unused (e0 :: e1 :: t) 1.
Proof.
  intros H0 H1. split; [exists e1; split; [reflexivity | exact H1] |].
  intros [|j] e Hj Hl; [|lia]. simpl in Hl. congruence.
Qed.

(** *** Reservation *)

(** C4. On a table of [GANG_ZONE_POOL_SIZE] slots whose sentinel is no
    array position, [reserveExternalID v] (resp. [reserveInternalID v])
    returns the lowest position [i] whose slot has both fields unset.
    Afterwards slot [i] reads [Global = v] with its [Private] field as it
    was, that is unset (resp. [Private = v] with [Global] unset), and
    every other slot reads as before. When no slot has both fields unset
    the call returns the sentinel and the table is unchanged. On the
    empty table (of at least two slots, with a sentinel other than 5)
    [reserveExternalID 5] returns 0 and leaves 5 in the [Global] field of
    slot 0, the following [reserveInternalID 7] returns 1 and leaves 7 in
    the [Private] field of slot 1, and after [releaseExternalID 5] the
    next [reserveExternalID 9] returns 0. *)
Theorem reserve_lowest_unused (t : list ExternaGangZoneID) (v : Z) :
  sentinel_off_range -> length t = GANG_ZONE_POOL_SIZE ->
  (forall i, lowest unused t i ->
     (reserveExternalID t v).1 = Z.of_nat i /\
     (reserveExternalID t v).2 !! i
       = Some {| Private := INVALID_GANG_ZONE_ID; Global := v |} /\
     (forall j, j <> i -> (reserveExternalID t v).2 !! j = t !! j) /\
     (reserveInternalID t v).1 = Z.of_nat i /\
     (reserveInternalID t v).2 !! i
       = Some {| Private := v; Global := INVALID_GANG_ZONE_ID |} /\
     (forall j, j <> i -> (reserveInternalID t v).2 !! j = t !! j) /\
     (forall e, t !! i = Some e ->
        reserveExternalID t v
          = (Z.of_nat i, <[i := {| Private := Private e; Global := v |}]> t) /\
        reserveInternalID t v
          = (Z.of_nat i, <[i := {| Private := v; Global := Global e |}]> t))) /\
  ((forall i e, t !! i = Some e -> ~ unused e) ->
     reserveExternalID t v = (INVALID_GANG_ZONE_ID, t) /\
     reserveInternalID t v = (INVALID_GANG_ZONE_ID, t)) /\
  ((2 <= GANG_ZONE_POOL_SIZE)%nat -> INVALID_GANG_ZONE_ID <> 5%Z ->
     let t1 := (reserveExternalID emptyTable 5).2 in
     let t2 := (reserveInternalID t1 7).2 in
     let t3 := (releaseExternalID t2 5).2 in
     (reserveExternalID emptyTable 5).1 = 0%Z /\
     t1 !! 0%nat = Some {| Private := INVALID_GANG_ZONE_ID; Global := 5 |} /\
     (reserveInternalID t1 7).1 = 1%Z /\
     t2 !! 0%nat = Some {| Private := INVALID_GANG_ZONE_ID; Global := 5 |} /\
     t2 !! 1%nat = Some {| Private := 7; Global := INVALID_GANG_ZONE_ID |} /\
     (releaseExternalID t2 5).1 = 0%Z /\
     t3 !! 0%nat = Some unusedSlot /\
     (reserveExternalID t3 9).1 = 0%Z /\
     (reserveExternalID t3 9).2 !! 0%nat
       = Some {| Private := INVALID_GANG_ZONE_ID; Global := 9 |} /\
     (reserveExternalID t3 9).2 !! 1%nat
       = Some {| Private := 7; Global := INVALID_GANG_ZONE_ID |}).
Proof.
  intros Hoff Hlen. split; [|split].
  - intros i Hlow. pose proof Hlow as [[e [Hl [Hg Hp]]] _].
    assert (Hi : (i < length t)%nat) by (eapply lookup_lt_Some; eauto).
    rewrite (reserveExternalID_at t v i e Hoff Hlen Hlow Hl).
    rewrite (reserveInternalID_at t v i e Hoff Hlen Hlow Hl).
    cbn [fst snd]. unfold setGlobal, setPrivate. rewrite Hg, Hp.
    split; [reflexivity|].
    split; [now apply list_lookup_insert_eq|].
    split; [intros j Hne; now apply list_lookup_insert_ne|].
    split; [reflexivity|].
    split; [now apply list_lookup_insert_eq|].
    split; [intros j Hne; now apply list_lookup_insert_ne|].
    intros e' Hl'. rewrite Hl in Hl'. injection Hl' as <-.
    now rewrite Hg, Hp.
  - intros Hfull.
    unfold PlayerGangZoneData.reserveExternalID,
      PlayerGangZoneData.reserveInternalID. cbv zeta.
    rewrite (findUnusedID_full t Hfull), Z.eqb_refl. now split.
  - intros Hsize Hfive. rewrite emptyTable_replicate.
    rewrite (replicate_two _ unusedSlot Hsize).
    set (rest := replicate (GANG_ZONE_POOL_SIZE - 2) unusedSlot).
    assert (Hfree : unused unusedSlot) by (split; reflexivity).
    assert (Hlen0 : length (unusedSlot :: unusedSlot :: rest) = GANG_ZONE_POOL_SIZE)
      by (simpl; unfold rest; rewrite length_replicate; lia).
    (* reserveExternalID 5 *)
    rewrite (reserveExternalID_at _ 5 0 unusedSlot Hoff Hlen0
               (lowest_unused_head _ _ Hfree) eq_refl).
    cbn [fst snd insert list_insert]. cbv zeta.
    (* reserveInternalID 7 *)
    assert (Hused : ~ unused (setGlobal 5 unusedSlot))
      by (intros [Hg _]; simpl in Hg; congruence).
    assert (Hlen1 : length (setGlobal 5 unusedSlot :: unusedSlot :: rest)
                    = GANG_ZONE_POOL_SIZE) by exact Hlen0.
    rewrite (reserveInternalID_at _ 7 1 unusedSlot Hoff Hlen1
               (lowest_unused_second _ _ _ Hused Hfree) eq_refl).
    cbn [fst snd insert list_insert].
    (* releaseExternalID 5 *)
    assert (Hlen2 : length (setGlobal 5 unusedSlot :: setPrivate 7 unusedSlot :: rest)
                    = GANG_ZONE_POOL_SIZE) by exact Hlen0.
    assert (Hfirst : lowest (fun e => Global e = 5%Z)
                       (setGlobal 5 unusedSlot :: setPrivate 7 unusedSlot :: rest) 0).
    { split; [eexists; split; reflexivity | intros; lia]. }
    rewrite (releaseExternalID_at _ 5 0 _ Hoff Hlen2 Hfirst eq_refl).
    cbn [fst snd insert list_insert].
    (* reserveExternalID 9 *)
    assert (Hlen3 : length (setGlobal INVALID_GANG_ZONE_ID (setGlobal 5 unusedSlot)
                              :: setPrivate 7 unusedSlot :: rest)
                    = GANG_ZONE_POOL_SIZE) by exact Hlen0.
    rewrite (reserveExternalID_at _ 9 0 _ Hoff Hlen3
               (lowest_unused_head _ _ Hfree) eq_refl).
    cbn [fst snd insert list_insert]. repeat split.
Qed.

(** *** Release *)

(** C5. [releaseExternalID v] (resp. [releaseInternalID v]) returns the
    lowest position [i] whose slot holds [v] on the [Global] (resp.
    [Private]) side and resets that field of that slot to the sentinel:
    the other field of slot [i] and every other slot read as before. When
    no slot holds [v] on that side the call returns the sentinel and the
    table is unchanged. *)
Theorem release_clears_one_side (t : list ExternaGangZoneID) (v : Z) :
  sentinel_off_range -> length t = GANG_ZONE_POOL_SIZE ->
  (forall i e, lowest (fun e => Global e = v) t i -> t !! i = Some e ->
     (releaseExternalID t v).1 = Z.of_nat i /\
     (releaseExternalID t v).2 !! i
       = Some {| Private := Private e; Global := INVALID_GANG_ZONE_ID |} /\
     forall j, j <> i -> (releaseExternalID t v).2 !! j = t !! j) /\
  (forall i e, lowest (fun e => Private e = v) t i -> t !! i = Some e ->
     (releaseInternalID t v).1 = Z.of_nat i /\
     (releaseInternalID t v).2 !! i
       = Some {| Private := INVALID_GANG_ZONE_ID; Global := Global e |} /\
     forall j, j <> i -> (releaseInternalID t v).2 !! j = t !! j) /\
  ((forall i e, t !! i = Some e -> Global e <> v) ->
     releaseExternalID t v = (INVALID_GANG_ZONE_ID, t)) /\
  ((forall i e, t !! i = Some e -> Private e <> v) ->
     releaseInternalID t v = (INVALID_GANG_ZONE_ID, t)).
Proof.
  intros Hoff Hlen. repeat split.
  - now rewrite (releaseExternalID_at t v i e).
  - rewrite (releaseExternalID_at t v i e) by assumption. simpl.
    apply list_lookup_insert_eq. eapply lookup_lt_Some; eauto.
  - intros j Hne. rewrite (releaseExternalID_at t v i e) by assumption.
    simpl. now apply list_lookup_insert_ne.
  - now rewrite (releaseInternalID_at t v i e).
  - rewrite (releaseInternalID_at t v i e) by assumption. simpl.
    apply list_lookup_insert_eq. eapply lookup_lt_Some; eauto.
  - intros j Hne. rewrite (releaseInternalID_at t v i e) by assumption.
    simpl. now apply list_lookup_insert_ne.
  - intros Habsent. unfold PlayerGangZoneData.releaseExternalID. cbv zeta.
    now rewrite (getExternalID_absent t v Habsent), Z.eqb_refl.
  - intros Habsent. unfold PlayerGangZoneData.releaseInternalID. cbv zeta.
    now rewrite (getInternalID_absent t v Habsent), Z.eqb_refl.
Qed.

(** *** Lookups of the sentinel itself *)

(** C9. The sentinel is compared like any stored value: when some slot
    has its [Global] field unset, [getExternalID INVALID_GANG_ZONE_ID]
    returns the lowest such position, which is not the sentinel, and
    [releaseExternalID INVALID_GANG_ZONE_ID] returns that same position
    and leaves the table as it was; likewise on the [Private] side. *)
Theorem sentinel_lookup_aliases (t : list ExternaGangZoneID) :
  sentinel_off_range -> length t = GANG_ZONE_POOL_SIZE ->
  (forall i, lowest (fun e => Global e = INVALID_GANG_ZONE_ID) t i ->
     getExternalID t INVALID_GANG_ZONE_ID = Z.of_nat i /\
     getExternalID t INVALID_GANG_ZONE_ID <> INVALID_GANG_ZONE_ID /\
     releaseExternalID t INVALID_GANG_ZONE_ID = (Z.of_nat i, t)) /\
  (forall i, lowest (fun e => Private e = INVALID_GANG_ZONE_ID) t i ->
     getInternalID t INVALID_GANG_ZONE_ID = Z.of_nat i /\
     getInternalID t INVALID_GANG_ZONE_ID <> INVALID_GANG_ZONE_ID /\
     releaseInternalID t INVALID_GANG_ZONE_ID = (Z.of_nat i, t)).
Proof.
  intros Hoff Hlen. split; intros i Hlow;
    pose proof Hlow as [[e [Hl He]] _];
    pose proof (position_not_sentinel t i e Hoff Hlen Hl) as Hpos;
    apply Z.eqb_neq in Hpos.
  - rewrite (getExternalID_lowest t _ i Hlen Hlow). repeat split; [exact Hpos|].
    rewrite (releaseExternalID_at t _ i e Hoff Hlen Hlow Hl). f_equal.
    apply list_insert_id. rewrite Hl. f_equal.
    destruct e as [p g]. simpl in He. subst g. reflexivity.
  - rewrite (getInternalID_lowest t _ i Hlen Hlow). repeat split; [exact Hpos|].
    rewrite (releaseInternalID_at t _ i e Hoff Hlen Hlow Hl). f_equal.
    apply list_insert_id. rewrite Hl. f_equal.
    destruct e as [p g]. simpl in He. subst p. reflexivity.
Qed.

End Table.

(** Slot 1 holds the global value 8; releasing it keeps the private 4. *)
Lemma release_clears_one_side_witness :
  let t := [ {| Private := 3; Global := -1 |}; {| Private := 4; Global := 8 |};
             {| Private := -1; Global := 8 |}; {| Private := -1; Global := -1 |} ] in
  (releaseExternalID 4 (-1) t 8).1 = 1%Z /\
  (releaseExternalID 4 (-1) t 8).2 !! 1%nat = Some {| Private := 4; Global := -1 |} /\
  releaseExternalID 4 (-1) t 5 = ((-1)%Z, t).
Proof.
  cbv zeta.
  set (t := [ {| Private := 3; Global := -1 |}; {| Private := 4; Global := 8 |};
              {| Private := -1; Global := 8 |}; {| Private := -1; Global := -1 |} ]).
  assert (Hoff : sentinel_off_range 4 (-1)) by (left; reflexivity).
  destruct (release_clears_one_side 4 (-1) t 8 Hoff eq_refl) as [Hext _].
  destruct (release_clears_one_side 4 (-1) t 5 Hoff eq_refl) as [_ [_ [Habs _]]].
  assert (Hlow : lowest (fun e => Global e = 8%Z) t 1).
  { split; [eexists; split; reflexivity |].
    intros [|j] e Hj Hl; [|lia]. injection Hl as <-. discriminate. }
  destruct (Hext 1%nat _ Hlow eq_refl) as [H1 [H2 _]].
  split; [exact H1 | split; [exact H2 |]].
  apply Habs. intros [|[|[|[|i]]]] e Hl; try discriminate Hl;
    injection Hl as <-; discriminate.
Defined.

(** Looking the sentinel -1 up on the global side of this table answers
    slot 0, whose global field is unset. *)
Lemma sentinel_lookup_aliases_witness :
  let t := [ {| Private := 3; Global := -1 |}; {| Private := 4; Global := 8 |} ] in
  getExternalID 2 (-1) t (-1) = 0%Z /\
  releaseExternalID 2 (-1) t (-1) = (0%Z, t).
Proof.
  cbv zeta.
  set (t := [ {| Private := 3; Global := -1 |}; {| Private := 4; Global := 8 |} ]).
  assert (Hoff : sentinel_off_range 2 (-1)) by (left; reflexivity).
  destruct (sentinel_lookup_aliases 2 (-1) t Hoff eq_refl) as [Hext _].
  assert (Hlow : lowest (fun e => Global e = (-1)%Z) t 0).
  { split; [eexists; split; reflexivity | intros; lia]. }
  destruct (Hext 0%nat Hlow) as [H1 [_ H3]]. split; assumption.
Defined.

(** The table below has its first slot taken on the private side; with
    four slots and the sentinel -1 the reservation lands on slot 1. *)
Lemma reserve_lowest_unused_witness :
  let t := [ {| Private := 3; Global := -1 |}; {| Private := -1; Global := -1 |};
             {| Private := -1; Global := 8 |}; {| Private := -1; Global := -1 |} ] in
  reserveExternalID 4 (-1) t 9
  = (1%Z, [ {| Private := 3; Global := -1 |}; {| Private := -1; Global := 9 |};
            {| Private := -1; Global := 8 |}; {| Private := -1; Global := -1 |} ]) /\
  reserveInternalID 4 (-1) t 9
  = (1%Z, [ {| Private := 3; Global := -1 |}; {| Private := 9; Global := -1 |};
            {| Private := -1; Global := 8 |}; {| Private := -1; Global := -1 |} ]) /\
  (reserveExternalID 4 (-1) (emptyTable 4 (-1)) 5).1 = 0%Z.
Proof.
  cbv zeta.
  set (t := [ {| Private := 3; Global := -1 |}; {| Private := -1; Global := -1 |};
              {| Private := -1; Global := 8 |}; {| Private := -1; Global := -1 |} ]).
  assert (Hoff : sentinel_off_range 4 (-1)) by (left; reflexivity).
  destruct (reserve_lowest_unused 4 (-1) t 9 Hoff eq_refl) as [Hfound [_ Hexample]].
  assert (Hlow : lowest (unused (-1)) t 1).
  { split.
    - exists {| Private := -1; Global := -1 |}. repeat split.
    - intros [|j] e Hj Hl; [|lia]. injection Hl as <-.
      intros [_ Hp]. discriminate Hp. }
  destruct (Hfound 1%nat Hlow) as [_ [_ [_ [_ [_ [_ Hslots]]]]]].
  destruct (Hslots {| Private := -1; Global := -1 |} eq_refl) as [Hext Hint].
  split; [exact Hext | split; [exact Hint |]].
  refine (proj1 (Hexample _ _)); [lia | discriminate].
Defined.

(** *** The code run on a table of 1024 slots with the sentinel -1 *)

Example table_walkthrough :
  let t0 := emptyTable 1024 (-1) in
  let r1 := reserveExternalID 1024 (-1) t0 5 in
  let r2 := reserveInternalID 1024 (-1) r1.2 7 in
  let r3 := releaseExternalID 1024 (-1) r2.2 5 in
  let r4 := reserveExternalID 1024 (-1) r3.2 9 in
  (r1.1, r2.1, r3.1, r4.1) = (0, 1, 0, 0)%Z.
Proof. vm_compute. reflexivity. Qed.

(** A slot is handed out again once its only taken side is released. *)
Example released_slot_is_reused :
  let t0 := emptyTable 1024 (-1) in
  let r1 := reserveExternalID 1024 (-1) t0 5 in
  let r2 := reserveInternalID 1024 (-1) r1.2 7 in
  let r3 := releaseInternalID 1024 (-1) r2.2 7 in
  (reserveInternalID 1024 (-1) r3.2 8).1 = 1%Z /\
  (reserveInternalID 1024 (-1) r2.2 8).1 = 2%Z.
Proof. vm_compute. split; reflexivity. Qed.

Example sentinel_found_on_fresh_table :
  getExternalID 1024 (-1) (emptyTable 1024 (-1)) (-1) = 0%Z.
Proof. vm_compute. reflexivity. Qed.

End PlayerGangZoneDataSpec.

(** ** The timer identifiers *)

Module PawnTimerImplSpec.
Import PawnTimerImpl.

Section Timers.

Variable ITimer : Type.
Variable UINT_MAX : N.

Local Abbreviation insert_loop := (insert_loop ITimer UINT_MAX).
Local Abbreviation insert := (insert ITimer UINT_MAX).
Local Abbreviation incr := (incr UINT_MAX).
Local Abbreviation well_formed := (well_formed ITimer UINT_MAX).
Local Abbreviation first_free_from := (first_free_from ITimer UINT_MAX).
Local Abbreviation full := (full ITimer UINT_MAX).
Local Abbreviation loop_post := (loop_post ITimer UINT_MAX).

Lemma incr_below i : (i < UINT_MAX)%N -> incr i = (i + 1)%N.
Proof. intros Hi. unfold PawnTimerImpl.incr. apply N.mod_small. lia. Qed.

Lemma insert_loop_post (p : gmap N ITimer) (i : N) (wrappedOnce : bool) :
  (i <= UINT_MAX)%N -> loop_post p i wrappedOnce (insert_loop p i wrappedOnce).
Proof.
  apply (insert_loop_elim ITimer UINT_MAX
           (fun p i w r => (i <= UINT_MAX)%N -> loop_post p i w r));
    clear p i wrappedOnce.
  - (* the cursor is free: the loop is left at once *)
    intros p i w Hfree Hi. simpl. repeat split; auto. left. split; [lia|].
    intros k Hk. lia.
  - (* occupied below UINT_MAX: one step up *)
    intros p i Hne t w IH _ Hocc Hi. apply N.eqb_neq in Hne.
    rewrite incr_below in * by lia. specialize (IH ltac:(lia)).
    destruct (PawnTimerImpl.insert_loop ITimer UINT_MAX p (i + 1) w) as [r|r];
      simpl in *.
    + destruct IH as [Hfree [Hr Hwalk]]. split; [exact Hfree|]. split; [exact Hr|].
      assert (r <> i) by (intros ->; rewrite Hocc in Hfree; discriminate).
      destruct Hwalk as [[Hle Hbetween] | [Hw [Hlt [Hup Hlow]]]].
      * left. split; [lia|]. intros k Hk.
        destruct (N.eq_dec k i) as [->|]; [rewrite Hocc; eauto|]. apply Hbetween. lia.
      * right. repeat split; auto; [lia|]. intros k Hk.
        destruct (N.eq_dec k i) as [->|]; [rewrite Hocc; eauto|]. apply Hup. lia.
    + destruct IH as [Hr [Hup Hall]]. repeat split; auto.
      intros k Hk.
      destruct (N.eq_dec k i) as [->|]; [rewrite Hocc; eauto|]. apply Hup. lia.
  - (* occupied at UINT_MAX after a wrap: return 0 *)
    intros p i He t w _ _ Hocc Hi. apply N.eqb_eq in He. subst i. simpl.
    repeat split; [|discriminate]. intros k Hk.
    replace k with UINT_MAX by lia. rewrite Hocc; eauto.
  - (* occupied at UINT_MAX, first time: wrap to 0 *)
    intros p i He t w IH _ _ Hocc Hi. apply N.eqb_eq in He. subst i.
    specialize (IH ltac:(lia)).
    destruct (PawnTimerImpl.insert_loop ITimer UINT_MAX p 0 true) as [r|r];
      simpl in *.
    + destruct IH as [Hfree [Hr Hwalk]]. split; [exact Hfree|]. split; [exact Hr|].
      assert (r <> UINT_MAX) by (intros ->; rewrite Hocc in Hfree; discriminate).
      destruct Hwalk as [[_ Hbetween] | [Hw _]]; [|discriminate].
      right. repeat split; [lia | |].
      * intros k Hk. replace k with UINT_MAX by lia. rewrite Hocc; eauto.
      * intros k Hk. apply Hbetween. lia.
    + destruct IH as [Hr [Hup _]]. repeat split; auto.
      * intros k Hk. apply Hup. lia.
      * intros _ k Hk. apply Hup. lia.
Qed.

(** A map that has an entry for each of the first [n] keys has at least
    [n] entries. *)
Lemma size_ge_keys n : forall m : gmap N ITimer,
  (forall k, (k < N.of_nat n)%N -> is_Some (m !! k)) -> (n <= size m)%nat.
Proof.
  induction n as [|n IH]; intros m Hkeys; [lia|].
  assert (Hlast : is_Some (m !! N.of_nat n)) by (apply Hkeys; lia).
  pose proof (map_size_ne_0_lookup_2 m _ Hlast) as Hpos.
  pose proof (map_size_delete_Some _ m Hlast) as Hdel.
  assert (n <= size (delete (N.of_nat n) m))%nat; [|lia].
  apply IH. intros k Hk. rewrite lookup_delete_ne by lia. apply Hkeys. lia.
Qed.

Lemma full_size (m : gmap N ITimer) :
  full m -> (UINT_MAX + 1 <= N.of_nat (size m))%N.
Proof.
  intros Hfull.
  assert (N.to_nat (UINT_MAX + 1) <= size m)%nat; [|lia].
  apply size_ge_keys. intros k Hk. apply Hfull. lia.
Qed.

Lemma emplace_free (m : gmap N ITimer) k timer :
  m !! k = None -> emplace ITimer m k timer = <[k := timer]> m.
Proof. intros Hfree. unfold emplace. now rewrite Hfree. Qed.

(** C10. For a pool whose keys and cursor are [uint32_t] values: when
    the pool holds fewer than [UINT_MAX + 1] timers, [insert timer]
    returns an index that was not a key before the call, the first free
    one met walking up from the cursor and on from 0 past [UINT_MAX], and
    afterwards the pool is the old one with that index mapped to [timer];
    when every [uint32_t] index has an entry, [insert] returns 0 and the
    pool is unchanged. *)
Theorem insert_returns_fresh_index (self : PawnTimerImpl ITimer) (timer : ITimer) :
  well_formed self ->
  ((N.of_nat (size (pool self)) < UINT_MAX + 1)%N ->
     let r := (insert self timer).1 in
     pool self !! r = None /\
     pool (insert self timer).2 !! r = Some timer /\
     pool (insert self timer).2 = <[r := timer]> (pool self) /\
     first_free_from (pool self) (idx self) r) /\
  (full (pool self) ->
     (insert self timer).1 = 0%N /\ pool (insert self timer).2 = pool self).
Proof.
  intros [Hidx Hkeys].
  pose proof (insert_loop_post (pool self) (idx self) false Hidx) as Hpost.
  unfold PawnTimerImpl.insert.
  destruct (PawnTimerImpl.insert_loop ITimer UINT_MAX (pool self) (idx self) false)
    as [r|r]; simpl in Hpost.
  - destruct Hpost as [Hfree [Hr Hwalk]]. split.
    + intros _. cbn. rewrite (emplace_free _ _ _ Hfree).
      repeat split; auto.
      * apply lookup_insert_eq.
      * destruct Hwalk as [Hup | [_ Hwrap]]; [left | right]; assumption.
    + intros Hfull. destruct (Hfull r Hr) as [x Hx]. congruence.
  - destruct Hpost as [_ [_ Hall]]. split.
    + intros Hsize. pose proof (full_size _ (Hall eq_refl)). lia.
    + intros _. split; reflexivity.
Qed.

End Timers.

(** The allocator as it starts: an empty pool and the cursor on 1, with
    32-bit identifiers. *)
Lemma insert_returns_fresh_index_witness :
  let self := {| pool := (∅ : gmap N nat); idx := 1 |} in
  pool (insert nat 4294967295 self 7%nat).2
    !! (insert nat 4294967295 self 7%nat).1 = Some 7%nat.
Proof.
  cbv zeta.
  assert (Hwf : well_formed nat 4294967295 {| pool := (∅ : gmap N nat); idx := 1 |}).
  { split; [simpl; lia|]. simpl. intros k [x Hx].
    rewrite lookup_empty in Hx. discriminate. }
  destruct (insert_returns_fresh_index nat 4294967295 _ 7%nat Hwf) as [Hfresh _].
  refine (proj1 (proj2 (Hfresh _))). simpl. rewrite map_size_empty. lia.
Defined.

(** *** The code run on small pools *)

Example first_timer_gets_1 :
  (insert nat 4294967295 {| pool := ∅; idx := 1 |} 7%nat).1 = 1%N.
Proof. vm_compute. reflexivity. Qed.

(** With two-bit identifiers: keys 2 and 3 are taken and the cursor is on
    2, so the search wraps to 0 and the cursor moves on to 1. *)
Example insert_wraps_to_0 :
  let self := {| pool := <[3%N := 5%nat]> (<[2%N := 5%nat]> ∅); idx := 2 |} in
  (insert nat 3 self 9%nat).1 = 0%N /\
  pool (insert nat 3 self 9%nat).2 !! 0%N = Some 9%nat /\
  idx (insert nat 3 self 9%nat).2 = 1%N.
Proof. vm_compute. repeat split; reflexivity. Qed.

(** With one-bit identifiers and both keys taken nothing is inserted. *)
Example insert_on_full_pool :
  let self := {| pool := <[1%N := 5%nat]> (<[0%N := 5%nat]> ∅); idx := 0 |} in
  (insert nat 1 self 9%nat).1 = 0%N /\
  pool (insert nat 1 self 9%nat).2 !! 0%N = Some 5%nat.
Proof. vm_compute. split; reflexivity. Qed.

End PawnTimerImplSpec.

(** ** The gang zone component *)

Module GangZonesSpec.
Import GangZones.

(** *** The containment test *)

Lemma SFcompare_antisym (a b : spec_float) :
  SFcompare b a = option_map CompOpp (SFcompare a b).
Proof.
  destruct a as [sa|sa| |sa ma ea], b as [sb|sb| |sb mb eb]; simpl;
    try reflexivity;
    try (destruct sa; reflexivity); try (destruct sb; reflexivity);
    try (destruct sa, sb; reflexivity).
  f_equal. rewrite (Z.compare_antisym ea eb).
  destruct sa, sb; try reflexivity;
    destruct (ea ?= eb)%Z; simpl; try reflexivity;
    now rewrite (Pos.compare_cont_antisym ma mb Eq).
Qed.

(** [a >= b] and [b <= a] are the same test, NaN included. *)
Lemma float_ge_le (a b : spec_float) : float_ge a b = SFleb b a.
Proof.
  unfold float_ge, SFleb. rewrite (SFcompare_antisym a b).
  destruct (SFcompare a b) as [[]|]; reflexivity.
Qed.

Lemma SFcompare_refl (v : spec_float) :
  v <> S754_nan -> SFcompare v v = Some Eq.
Proof.
  destruct v as [sv|sv| |sv m e]; simpl; intros Hv; try congruence.
  - now destruct sv.
  - rewrite Z.compare_refl, Pos.compare_cont_refl. now destruct sv.
Qed.

(** Both ends of a non-empty interval belong to it. *)
Lemma within_ends (lo hi : spec_float) :
  SFleb lo hi = true -> within lo lo hi /\ within lo hi hi.
Proof.
  intros Hle. unfold within.
  assert (Hlo : lo <> S754_nan) by (intros ->; discriminate Hle).
  assert (Hhi : hi <> S754_nan) by (intros ->; destruct lo; discriminate Hle).
  unfold SFleb in *. rewrite !SFcompare_refl by assumption. now rewrite Hle.
Qed.

(** C1. The containment test of the sweep holds exactly when the x
    coordinate of the position lies in [[min.x, max.x]] and its y
    coordinate in [[min.y, max.y]], all four bounds included (a position
    on a corner of the rectangle passes the test); the z coordinate of the
    position does not enter the result. *)
Theorem containment_is_inclusive_rectangle
    (playerPos : Vector3.t) (pos : GangZonePos.t) :
  (isPlayerInZoneArea playerPos pos = true <->
     within (Vector2.x (GangZonePos.min pos)) (Vector3.x playerPos)
            (Vector2.x (GangZonePos.max pos)) /\
     within (Vector2.y (GangZonePos.min pos)) (Vector3.y playerPos)
            (Vector2.y (GangZonePos.max pos))) /\
  (forall z' : spec_float,
     isPlayerInZoneArea
       (Vector3.mk (Vector3.x playerPos) (Vector3.y playerPos) z') pos
     = isPlayerInZoneArea playerPos pos) /\
  (forall z' : spec_float,
     SFleb (Vector2.x (GangZonePos.min pos)) (Vector2.x (GangZonePos.max pos)) = true ->
     SFleb (Vector2.y (GangZonePos.min pos)) (Vector2.y (GangZonePos.max pos)) = true ->
     isPlayerInZoneArea
       (Vector3.mk (Vector2.x (GangZonePos.min pos)) (Vector2.y (GangZonePos.min pos)) z')
       pos = true /\
     isPlayerInZoneArea
       (Vector3.mk (Vector2.x (GangZonePos.max pos)) (Vector2.y (GangZonePos.max pos)) z')
       pos = true).
Proof.
  assert (Hiff : forall p,
            isPlayerInZoneArea p pos = true <->
            within (Vector2.x (GangZonePos.min pos)) (Vector3.x p)
                   (Vector2.x (GangZonePos.max pos)) /\
            within (Vector2.y (GangZonePos.min pos)) (Vector3.y p)
                   (Vector2.y (GangZonePos.max pos))).
  { intros p. unfold isPlayerInZoneArea, within, float_le.
    rewrite !float_ge_le, !andb_true_iff. tauto. }
  split; [apply Hiff | split; [reflexivity|]].
  intros z' Hx Hy.
  destruct (within_ends _ _ Hx) as [Hxlo Hxhi].
  destruct (within_ends _ _ Hy) as [Hylo Hyhi].
  split; apply Hiff; simpl; now split.
Qed.

(** *** Slots addressed by [int] indices *)

Lemma slot_of_Some (slots : list Slot) i s :
  slot_of slots i = Some s ->
  (0 <= i)%Z /\ slots !! Z.to_nat i = Some s /\ (i <? 0)%Z = false.
Proof.
  unfold slot_of. destruct (i <? 0)%Z eqn:E; [discriminate|].
  apply Z.ltb_ge in E. auto.
Qed.

Lemma slot_of_insert (slots : list Slot) i j s0 s :
  slot_of slots i = Some s0 ->
  slot_of (<[Z.to_nat i := s]> slots) j
  = if decide (i = j) then Some s else slot_of slots j.
Proof.
  intros Hi. apply slot_of_Some in Hi as [Hpos [Hl Hlt]].
  unfold slot_of. destruct (decide (i = j)) as [<-|Hne].
  - rewrite Hlt. apply list_lookup_insert_eq. eapply lookup_lt_Some; eauto.
  - destruct (j <? 0)%Z eqn:E; [reflexivity|]. apply Z.ltb_ge in E.
    apply list_lookup_insert_ne. lia.
Qed.

Lemma slot_of_alter (slots : list Slot) (f : Slot -> Slot) i j :
  (0 <= i)%Z ->
  slot_of (alter f (Z.to_nat i) slots) j
  = if decide (i = j) then f <$> slot_of slots j else slot_of slots j.
Proof.
  intros Hpos. unfold slot_of. destruct (decide (i = j)) as [<-|Hne].
  - destruct (i <? 0)%Z eqn:E; [apply Z.ltb_lt in E; lia|].
    apply list_lookup_alter_eq.
  - destruct (j <? 0)%Z eqn:E; [reflexivity|]. apply Z.ltb_ge in E.
    apply list_lookup_alter_ne. lia.
Qed.

Lemma storage_get_slot (slots : list Slot) i s :
  slot_of slots i = Some s -> storage_get slots i = entity s.
Proof. intros Hs. unfold storage_get. now rewrite Hs. Qed.

Lemma storage_get_Some (slots : list Slot) i z :
  storage_get slots i = Some z ->
  exists s, slot_of slots i = Some s /\ entity s = Some z.
Proof.
  unfold storage_get. destruct (slot_of slots i) as [s|]; [eauto | discriminate].
Qed.

(** *** The pool operations, slot by slot *)

Lemma storage_lock_slot (slots : list Slot) i j :
  slot_of (storage_lock slots i) j
  = if decide (i = j)
    then (fun s => match entity s with
                   | Some _ => {| entity := entity s; refs := S (refs s);
                                  deleted := deleted s |}
                   | None => s
                   end) <$> slot_of slots j
    else slot_of slots j.
Proof.
  unfold storage_lock, storage_get.
  destruct (slot_of slots i) as [s|] eqn:Hs.
  - destruct (entity s) as [z|] eqn:Hz.
    + apply slot_of_Some in Hs as Hs'. destruct Hs' as [Hpos _].
      rewrite slot_of_alter by assumption.
      destruct (decide (i = j)) as [<-|]; [|reflexivity].
      rewrite Hs. simpl. now rewrite Hz.
    + destruct (decide (i = j)) as [<-|]; [|reflexivity].
      rewrite Hs. simpl. now rewrite Hz.
  - destruct (decide (i = j)) as [<-|]; [|reflexivity]. now rewrite Hs.
Qed.

Lemma update_zone_slot (slots : list Slot) f i j :
  slot_of (update_zone slots i f) j
  = if decide (i = j)
    then (fun s => {| entity := f <$> entity s; refs := refs s;
                      deleted := deleted s |}) <$> slot_of slots j
    else slot_of slots j.
Proof.
  unfold update_zone. destruct (i <? 0)%Z eqn:E.
  - destruct (decide (i = j)) as [<-|]; [|reflexivity].
    unfold slot_of. now rewrite E.
  - apply Z.ltb_ge in E. now apply slot_of_alter.
Qed.

Lemma storage_unlock_slot (slots : list Slot) i j :
  slot_of (storage_unlock slots i).2 j
  = if decide (i = j)
    then (fun s => match refs s with
                   | O => s
                   | S n => if Nat.eqb n 0 && deleted s then emptySlot
                            else {| entity := entity s; refs := n;
                                    deleted := deleted s |}
                   end) <$> slot_of slots j
    else slot_of slots j.
Proof.
  unfold storage_unlock.
  destruct (slot_of slots i) as [s|] eqn:Hs.
  - destruct (refs s) as [|n] eqn:Hr.
    + destruct (decide (i = j)) as [<-|]; [|reflexivity].
      rewrite Hs. simpl. now rewrite Hr.
    + assert (Hres : forall s', slot_of (<[Z.to_nat i := s']> slots) j
                = if decide (i = j) then Some s' else slot_of slots j)
        by (intros s'; now apply slot_of_insert with (s0 := s)).
      destruct n as [|n], (deleted s) eqn:Hd; simpl;
        unfold storage_destroy; rewrite Hres;
        (destruct (decide (i = j)) as [<-|]; [|reflexivity]);
        rewrite Hs; simpl; rewrite Hr, ?Hd; reflexivity.
  - destruct (decide (i = j)) as [<-|]; [|reflexivity]. now rewrite Hs.
Qed.

Lemma storage_release_slot (slots : list Slot) i j :
  slot_of (storage_release slots i) j
  = if decide (i = j)
    then (fun s => match entity s, refs s with
                   | None, _ => s
                   | Some _, O => emptySlot
                   | Some _, S _ => {| entity := entity s; refs := refs s;
                                       deleted := true |}
                   end) <$> slot_of slots j
    else slot_of slots j.
Proof.
  unfold storage_release.
  destruct (slot_of slots i) as [s|] eqn:Hs.
  - assert (Hres : forall s', slot_of (<[Z.to_nat i := s']> slots) j
              = if decide (i = j) then Some s' else slot_of slots j)
      by (intros s'; now apply slot_of_insert with (s0 := s)).
    destruct (entity s) as [z|] eqn:Hz, (refs s) as [|n] eqn:Hr;
      unfold storage_destroy; rewrite ?Hres;
      (destruct (decide (i = j)) as [<-|]; [|reflexivity]);
      rewrite Hs; simpl; rewrite Hz, ?Hr; reflexivity.
  - destruct (decide (i = j)) as [<-|]; [|reflexivity]. now rewrite Hs.
Qed.

(** *** One entry of the sweep *)

Lemma transition_other self player i z status handler j :
  i <> j ->
  slot_of (storage (transition self player i z status handler).2) j
  = slot_of (storage self) j.
Proof.
  intros Hne. unfold transition, ScopedPoolReleaseLock, unlock, lock. simpl.
  rewrite storage_unlock_slot, update_zone_slot, storage_lock_slot.
  now destruct (decide (i = j)).
Qed.

Lemma transition_at self player i s z status handler :
  slot_of (storage self) i = Some s -> entity s = Some z ->
  pending_is_locked s ->
  slot_of (storage (transition self player i z status handler).2) i
  = Some {| entity := Some (setPlayerInside z player status);
            refs := refs s; deleted := deleted s |}.
Proof.
  intros Hs Hz Hpend. unfold transition, ScopedPoolReleaseLock, unlock, lock. simpl.
  rewrite storage_unlock_slot, update_zone_slot, storage_lock_slot.
  same_index.
  rewrite Hs. simpl. rewrite Hz. simpl.
  destruct (refs s) as [|n] eqn:Hr, (deleted s) eqn:Hd; simpl; try reflexivity.
  exfalso. now apply Hpend.
Qed.

Lemma onUpdate_entry_other self player playerPos i j :
  i <> j ->
  slot_of (storage (onUpdate_entry self player playerPos i).2) j
  = slot_of (storage self) j.
Proof.
  intros Hne. unfold onUpdate_entry.
  destruct (get self i) as [z|]; [|reflexivity].
  entry_cases z player playerPos;
    first [reflexivity | now apply transition_other].
Qed.

Lemma onUpdate_entry_checkingList self player playerPos i :
  checkingList (onUpdate_entry self player playerPos i).2 = checkingList self.
Proof.
  unfold onUpdate_entry.
  destruct (get self i) as [z|]; [|reflexivity].
  entry_cases z player playerPos; reflexivity.
Qed.

(** Whatever one entry dispatches is about the sweeping player and the
    zone of that entry. *)
Lemma onUpdate_entry_events self player playerPos i :
  Forall (fun e => event_player e = player /\ event_zoneID e = i)
    (onUpdate_entry self player playerPos i).1.
Proof.
  unfold onUpdate_entry.
  destruct (get self i) as [z|]; [|constructor].
  entry_cases z player playerPos; repeat constructor.
Qed.

Lemma onUpdate_entry_invisible self player playerPos i z :
  get self i = Some z -> isShownForPlayer z player = false ->
  onUpdate_entry self player playerPos i = ([], self).
Proof.
  intros Hget Hshown. unfold onUpdate_entry. now rewrite Hget, Hshown.
Qed.

Lemma onUpdate_entry_at self player i s z :
  slot_of (storage self) i = Some s -> entity s = Some z ->
  pending_is_locked s ->
  (onUpdate_entry self player (getPosition player) i).1 = pair_dispatch z player i /\
  slot_of (storage (onUpdate_entry self player (getPosition player) i).2) i
  = Some {| entity := Some (pair_next z player);
            refs := refs s; deleted := deleted s |}.
Proof.
  intros Hs Hz Hpend.
  assert (Hsame : Some s = Some {| entity := Some z; refs := refs s;
                                   deleted := deleted s |})
    by (destruct s; simpl in *; now subst).
  unfold onUpdate_entry, pair_dispatch, pair_next, get.
  rewrite (storage_get_slot _ _ _ Hs), Hz. cbv zeta.
  destruct (negb (isShownForPlayer z player));
    [cbn [fst snd]; now rewrite Hs|].
  destruct (isPlayerInZoneArea (getPosition player) (pos z)
            && negb (isPlayerInside z player)).
  { split; [reflexivity | now apply transition_at]. }
  destruct (negb (isPlayerInZoneArea (getPosition player) (pos z))
            && isPlayerInside z player).
  { split; [reflexivity | now apply transition_at]. }
  cbn [fst snd]. now rewrite Hs.
Qed.

(** *** Filtering the events of a pair *)

Lemma pair_events_app pid i (l1 l2 : list GangZoneEvent) :
  pair_events pid i (l1 ++ l2) = pair_events pid i l1 ++ pair_events pid i l2.
Proof. apply filter_app. Qed.

Lemma pair_events_other_zone pid i j (l : list GangZoneEvent) :
  Forall (fun e => event_zoneID e = j) l -> j <> i -> pair_events pid i l = [].
Proof.
  intros Hall Hne. induction Hall as [|e l He _ IH]; [reflexivity|].
  unfold pair_events in *. rewrite filter_cons_False; [exact IH|].
  intros [_ Hz]. congruence.
Qed.

Lemma pair_events_own player i (l : list GangZoneEvent) :
  Forall (fun e => event_player e = player /\ event_zoneID e = i) l ->
  pair_events (getID player) i l = l.
Proof.
  intros Hall. induction Hall as [|e l [Hp Hz] _ IH]; [reflexivity|].
  unfold pair_events in *. rewrite filter_cons_True; [now rewrite IH|].
  now rewrite Hp, Hz.
Qed.

Lemma pair_dispatch_events z player i :
  Forall (fun e => event_player e = player /\ event_zoneID e = i)
    (pair_dispatch z player i).
Proof.
  unfold pair_dispatch. cbv zeta.
  entry_cases z player (getPosition player); repeat constructor.
Qed.

(** *** The whole sweep *)

Lemma onUpdate_loop_checkingList player playerPos entries : forall self,
  checkingList (onUpdate_loop self player playerPos entries).2 = checkingList self.
Proof.
  induction entries as [|j entries IH]; intros self; simpl; [reflexivity|].
  now rewrite IH, onUpdate_entry_checkingList.
Qed.


Lemma onUpdate_entry_other_events self player playerPos j pid i :
  j <> i -> pair_events pid i (onUpdate_entry self player playerPos j).1 = [].
Proof.
  intros Hne. apply pair_events_other_zone with (j := j); [|exact Hne].
  eapply Forall_impl; [apply onUpdate_entry_events|]. now intros e [_ He].
Qed.

(** Entries of other zones leave the pair alone. *)
Lemma onUpdate_loop_frame player playerPos pid i entries : forall self,
  i ∉ entries ->
  pair_events pid i (onUpdate_loop self player playerPos entries).1 = [] /\
  slot_of (storage (onUpdate_loop self player playerPos entries).2) i
  = slot_of (storage self) i.
Proof.
  induction entries as [|j entries IH]; intros self Hnotin; simpl; [now split|].
  apply not_elem_of_cons in Hnotin as [Hne Hnotin].
  destruct (IH (onUpdate_entry self player playerPos j).2 Hnotin) as [Hev Hslot].
  rewrite pair_events_app, Hev, Hslot.
  rewrite onUpdate_entry_other_events by congruence.
  split; [reflexivity|]. apply onUpdate_entry_other. congruence.
Qed.

(** A zone that is not shown for the player goes through the sweep
    untouched, wherever it stands in the list. *)
Lemma onUpdate_loop_invisible player playerPos i s z entries : forall self,
  slot_of (storage self) i = Some s -> entity s = Some z ->
  isShownForPlayer z player = false ->
  pair_events (getID player) i (onUpdate_loop self player playerPos entries).1 = [] /\
  slot_of (storage (onUpdate_loop self player playerPos entries).2) i = Some s.
Proof.
  induction entries as [|j entries IH]; intros self Hs Hz Hshown; simpl;
    [now split|].
  rewrite pair_events_app.
  destruct (decide (j = i)) as [->|Hne].
  - rewrite (onUpdate_entry_invisible self player playerPos i z); auto.
    + simpl. now apply IH.
    + unfold get. now rewrite (storage_get_slot _ _ _ Hs).
  - rewrite onUpdate_entry_other_events by exact Hne. simpl.
    apply IH; auto. now rewrite onUpdate_entry_other.
Qed.

(** A checked zone is visited once, and the pair moves as its machine says. *)
Lemma onUpdate_loop_at player i s z entries : forall self,
  NoDup entries -> i ∈ entries ->
  slot_of (storage self) i = Some s -> entity s = Some z ->
  pending_is_locked s ->
  pair_events (getID player) i
    (onUpdate_loop self player (getPosition player) entries).1
  = pair_dispatch z player i /\
  slot_of (storage (onUpdate_loop self player (getPosition player) entries).2) i
  = Some {| entity := Some (pair_next z player);
            refs := refs s; deleted := deleted s |}.
Proof.
  induction entries as [|j entries IH]; intros self Hnodup Hin Hs Hz Hpend.
  - now apply elem_of_nil in Hin.
  - apply NoDup_cons in Hnodup as [Hfresh Hnodup]. simpl.
    rewrite pair_events_app.
    destruct (decide (j = i)) as [->|Hne].
    + destruct (onUpdate_entry_at self player i s z Hs Hz Hpend) as [Hev Hslot].
      destruct (onUpdate_loop_frame player (getPosition player) (getID player) i
                  entries (onUpdate_entry self player (getPosition player) i).2
                  Hfresh) as [Hev' Hslot'].
      rewrite Hev', Hslot', Hev, app_nil_r.
      split; [|exact Hslot].
      apply pair_events_own, pair_dispatch_events.
    + rewrite onUpdate_entry_other_events by exact Hne. simpl.
      apply IH; auto.
      * apply elem_of_cons in Hin as [->|Hin]; [congruence | exact Hin].
      * now rewrite onUpdate_entry_other.
Qed.

Lemma onUpdate_pair self player i s z :
  i ∈ checkingList self ->
  slot_of (storage self) i = Some s -> entity s = Some z ->
  pending_is_locked s ->
  pair_events (getID player) i (onUpdate self player).1 = pair_dispatch z player i /\
  slot_of (storage (onUpdate self player).2) i
  = Some {| entity := Some (pair_next z player);
            refs := refs s; deleted := deleted s |} /\
  checkingList (onUpdate self player).2 = checkingList self.
Proof.
  intros Hin Hs Hz Hpend. unfold onUpdate, UniqueIDArray.entries.
  destruct (onUpdate_loop_at player i s z (elements (checkingList self)) self)
    as [Hev Hslot]; auto.
  - apply NoDup_elements.
  - now apply elem_of_elements.
  - repeat split; auto. apply onUpdate_loop_checkingList.
Qed.

(** *** Visibility *)

(** C3. If a zone is not shown for a player, a sweep for that player
    dispatches no enter and no leave event for the pair and leaves the
    zone, the recorded membership flag of the pair included, as it was,
    wherever the player stands. *)
Theorem invisible_zone_never_transitions
    (self : GangZonesComponent) (player : IPlayer) (i : Z) (z : GangZone) :
  get self i = Some z ->
  isShownForPlayer z player = false ->
  pair_events (getID player) i (onUpdate self player).1 = [] /\
  get (onUpdate self player).2 i = Some z /\
  (forall z', get (onUpdate self player).2 i = Some z' ->
     isPlayerInside z' player = isPlayerInside z player).
Proof.
  intros Hget Hshown.
  apply storage_get_Some in Hget as [s [Hs Hz]].
  destruct (onUpdate_loop_invisible player (getPosition player) i s z
              (UniqueIDArray.entries (checkingList self)) self Hs Hz Hshown)
    as [Hev Hslot].
  fold (onUpdate self player) in Hev, Hslot.
  assert (Hafter : get (onUpdate self player).2 i = Some z)
    by (unfold get; now rewrite (storage_get_slot _ _ _ Hslot)).
  repeat split; auto. intros z' Hz'. congruence.
Qed.

(** *** Edge-triggered membership *)

Lemma pair_enter z player i :
  isShownForPlayer z player = true ->
  isPlayerInZoneArea (getPosition player) (pos z) = true ->
  isPlayerInside z player = false ->
  pair_dispatch z player i
  = [onPlayerEnterGangZone player i (setPlayerInside z player true)] /\
  pair_next z player = setPlayerInside z player true.
Proof.
  intros Hs Ha Hi. unfold pair_dispatch, pair_next. now rewrite Hs, Ha, Hi.
Qed.

Lemma pair_leave z player i :
  isShownForPlayer z player = true ->
  isPlayerInZoneArea (getPosition player) (pos z) = false ->
  isPlayerInside z player = true ->
  pair_dispatch z player i
  = [onPlayerLeaveGangZone player i (setPlayerInside z player false)] /\
  pair_next z player = setPlayerInside z player false.
Proof.
  intros Hs Ha Hi. unfold pair_dispatch, pair_next. now rewrite Hs, Ha, Hi.
Qed.

Lemma pair_stay z player i :
  isPlayerInZoneArea (getPosition player) (pos z) = isPlayerInside z player ->
  pair_dispatch z player i = [] /\ pair_next z player = z.
Proof.
  intros Heq. unfold pair_dispatch, pair_next. rewrite Heq.
  destruct (isShownForPlayer z player), (isPlayerInside z player); now split.
Qed.

(** The sweeps of consecutive ticks refine the machine of each checked
    pair. *)
Lemma ticks_pair_run pid i players : forall self s z,
  i ∈ checkingList self ->
  slot_of (storage self) i = Some s -> entity s = Some z ->
  pending_is_locked s ->
  Forall (fun player => getID player = pid) players ->
  map (pair_events pid i) (ticks self players).1 = pair_run z players i.
Proof.
  induction players as [|player players IH]; intros self s z Hin Hs Hz Hpend Hids;
    [reflexivity|].
  apply Forall_cons in Hids as [Hid Hids]. simpl.
  destruct (onUpdate_pair self player i s z Hin Hs Hz Hpend) as [Hev [Hslot Hlist]].
  rewrite <- Hid at 1. rewrite Hev. f_equal.
  apply (IH _ {| entity := Some (pair_next z player); refs := refs s;
                 deleted := deleted s |}); auto.
  now rewrite Hlist.
Qed.

Lemma isPlayerInside_set z player player' status :
  getID player' = getID player ->
  isPlayerInside (setPlayerInside z player status) player' = status.
Proof.
  intros Hid. unfold isPlayerInside, setPlayerInside. simpl. rewrite Hid.
  destruct status.
  - apply bool_decide_eq_true, elem_of_union. right. now apply elem_of_singleton.
  - apply bool_decide_eq_false. intros [_ Hn]%elem_of_difference.
    apply Hn. now apply elem_of_singleton.
Qed.

Lemma onUpdate_entry_stay self player playerPos i z :
  get self i = Some z ->
  isPlayerInZoneArea playerPos (pos z) = isPlayerInside z player ->
  onUpdate_entry self player playerPos i = ([], self).
Proof.
  intros Hget Hsame. unfold onUpdate_entry. rewrite Hget. cbv zeta.
  rewrite Hsame.
  destruct (isShownForPlayer z player), (isPlayerInside z player); reflexivity.
Qed.

(** A pair whose recorded flag agrees with the containment test goes
    through the sweep untouched: checked or not, shown or not. *)
Lemma onUpdate_loop_stay player playerPos i s z entries : forall self,
  slot_of (storage self) i = Some s -> entity s = Some z ->
  isPlayerInZoneArea playerPos (pos z) = isPlayerInside z player ->
  pair_events (getID player) i (onUpdate_loop self player playerPos entries).1 = [] /\
  slot_of (storage (onUpdate_loop self player playerPos entries).2) i = Some s.
Proof.
  induction entries as [|j entries IH]; intros self Hs Hz Hsame; simpl;
    [now split|].
  rewrite pair_events_app.
  destruct (decide (j = i)) as [->|Hne].
  - rewrite (onUpdate_entry_stay self player playerPos i z); auto.
    + simpl. now apply IH.
    + unfold get. now rewrite (storage_get_slot _ _ _ Hs).
  - rewrite onUpdate_entry_other_events by exact Hne. simpl.
    apply IH; auto. now rewrite onUpdate_entry_other.
Qed.

(** C2. For a live zone [z] under id [i]. The scenario: when the zone
    is checked and shown for the actor, the actor is recorded outside and
    the slot is not pending destruction while unlocked, six consecutive
    sweeps with the actor inside the rectangle on the first five ticks and
    outside on the sixth dispatch, for the pair, one enter event on tick 1
    (handed the zone with the membership flag already set), nothing on
    ticks 2 to 5 and one leave event on tick 6. The rule, for every player
    and with no further condition on the zone: a sweep in which the
    containment test equals the recorded flag dispatches nothing for the
    pair and leaves the slot of the zone, the flag included, as it was. *)
Theorem membership_events_are_edge_triggered
    (self : GangZonesComponent) (i : Z) (z : GangZone) :
  get self i = Some z ->
  (forall (s : Slot) (pid : Z) (pos1 pos2 pos3 pos4 pos5 pos6 : Vector3.t),
     let actor := fun position => {| getID := pid; getPosition := position |} in
     i ∈ checkingList self ->
     slot_of (storage self) i = Some s -> pending_is_locked s ->
     pid ∈ shownFor_ z -> pid ∉ playersInside_ z ->
     Forall (fun position => isPlayerInZoneArea position (pos z) = true)
       [pos1; pos2; pos3; pos4; pos5] ->
     isPlayerInZoneArea pos6 (pos z) = false ->
     map (pair_events pid i)
       (ticks self (actor <$> [pos1; pos2; pos3; pos4; pos5; pos6])).1
     = [ [onPlayerEnterGangZone (actor pos1) i (setPlayerInside z (actor pos1) true)];
         []; []; []; [];
         [onPlayerLeaveGangZone (actor pos6) i
            (setPlayerInside (setPlayerInside z (actor pos1) true) (actor pos6) false)] ] /\
     isPlayerInside (setPlayerInside z (actor pos1) true) (actor pos1) = true) /\
  (forall player,
     isPlayerInZoneArea (getPosition player) (pos z) = isPlayerInside z player ->
     pair_events (getID player) i (onUpdate self player).1 = [] /\
     get (onUpdate self player).2 i = Some z /\
     slot_of (storage (onUpdate self player).2) i = slot_of (storage self) i).
Proof.
  intros Hget. split.
  - intros s pid pos1 pos2 pos3 pos4 pos5 pos6 actor
      Hin Hs Hpend Hshown Hout Hinside Hfar.
    assert (Hz : entity s = Some z)
      by (unfold get in Hget; now rewrite (storage_get_slot _ _ _ Hs) in Hget).
    split; [|now apply isPlayerInside_set].
    rewrite (ticks_pair_run pid i _ self s z); auto;
      [|repeat constructor].
    assert (Hvis : forall z' position,
              shownFor_ z' = shownFor_ z -> isShownForPlayer z' (actor position) = true).
    { intros z' position Hsame. unfold isShownForPlayer. simpl.
      rewrite Hsame. now apply bool_decide_eq_true. }
    set (z1 := setPlayerInside z (actor pos1) true).
    assert (Hstay : forall position,
              isPlayerInZoneArea position (pos z) = true ->
              pair_dispatch z1 (actor position) i = [] /\
              pair_next z1 (actor position) = z1).
    { intros position Harea. apply pair_stay. simpl.
      rewrite Harea. symmetry. now apply isPlayerInside_set. }
    repeat match goal with
           | H : Forall _ (_ :: _) |- _ => apply Forall_cons in H as [? H]
           end.
    simpl.
    destruct (pair_enter z (actor pos1) i) as [-> ->]; auto.
    { unfold isPlayerInside. simpl. now apply bool_decide_eq_false. }
    fold z1.
    destruct (Hstay pos2) as [-> ->]; auto.
    destruct (Hstay pos3) as [-> ->]; auto.
    destruct (Hstay pos4) as [-> ->]; auto.
    destruct (Hstay pos5) as [-> ->]; auto.
    destruct (pair_leave z1 (actor pos6) i) as [-> _]; auto.
    now apply isPlayerInside_set.
  - intros player Hsame.
    apply storage_get_Some in Hget as [s [Hs Hz]].
    destruct (onUpdate_loop_stay player (getPosition player) i s z
                (UniqueIDArray.entries (checkingList self)) self Hs Hz Hsame)
      as [Hev Hslot].
    fold (onUpdate self player) in Hev, Hslot.
    split; [exact Hev|]. split; [|now rewrite Hslot, Hs].
    unfold get. now rewrite (storage_get_slot _ _ _ Hslot).
Qed.

(** Player 7 stands inside the square for five ticks and then leaves it;
    standing outside from the start, where it is recorded, it gets nothing. *)
Lemma membership_events_are_edge_triggered_witness :
  map (pair_events 7 0)
    (ticks example_component
       (player7 <$> [inside_square; inside_square; inside_square;
                     inside_square; inside_square; outside_square])).1
  = [ [onPlayerEnterGangZone (player7 inside_square) 0
         (setPlayerInside example_zone (player7 inside_square) true)];
      []; []; []; [];
      [onPlayerLeaveGangZone (player7 outside_square) 0
         (setPlayerInside
            (setPlayerInside example_zone (player7 inside_square) true)
            (player7 outside_square) false)] ] /\
  pair_events 7 0 (onUpdate example_component (player7 outside_square)).1 = [] /\
  get (onUpdate example_component (player7 outside_square)).2 0 = Some example_zone.
Proof.
  assert (Hchecked : 0%Z ∈ checkingList example_component)
    by (simpl; now apply elem_of_singleton).
  assert (Hpend : pending_is_locked
                    {| entity := Some example_zone; refs := 0; deleted := false |})
    by (intros Hdel; discriminate Hdel).
  assert (Hshown : 7%Z ∈ shownFor_ example_zone)
    by (simpl; now apply elem_of_singleton).
  assert (Hout : 7%Z ∉ playersInside_ example_zone)
    by apply not_elem_of_empty.
  assert (Hfive : Forall (fun position => isPlayerInZoneArea position (pos example_zone) = true)
                    [inside_square; inside_square; inside_square;
                     inside_square; inside_square])
    by (repeat constructor).
  assert (Hsame : isPlayerInZoneArea (getPosition (player7 outside_square))
                    (pos example_zone)
                  = isPlayerInside example_zone (player7 outside_square))
    by reflexivity.
  destruct (membership_events_are_edge_triggered example_component 0 example_zone
              eq_refl) as [Hscenario Hrule].
  split.
  - exact (proj1 (Hscenario
                    {| entity := Some example_zone; refs := 0; deleted := false |} 7%Z
                    inside_square inside_square inside_square inside_square
                    inside_square outside_square
                    Hchecked eq_refl Hpend Hshown Hout Hfive eq_refl)).
  - destruct (Hrule (player7 outside_square) Hsame) as [Hnone [Hkeep _]].
    split; [exact Hnone | exact Hkeep].
Defined.

(** Player 9 is not shown the example zone. *)
Lemma invisible_zone_never_transitions_witness :
  pair_events 9 0
    (onUpdate example_component {| getID := 9; getPosition := inside_square |}).1
  = [].
Proof.
  assert (Hhidden : isShownForPlayer example_zone
                      {| getID := 9; getPosition := inside_square |} = false).
  { apply bool_decide_eq_false. simpl. intros Hin.
    apply elem_of_singleton in Hin. discriminate Hin. }
  exact (proj1 (invisible_zone_never_transitions example_component
                  {| getID := 9; getPosition := inside_square |} 0 example_zone
                  eq_refl Hhidden)).
Defined.

(** *** Release through the component *)

Lemma storage_unlock_result (slots : list Slot) i s :
  slot_of slots i = Some s ->
  (storage_unlock slots i).1
  = match refs s with
    | 1%nat => deleted s
    | _ => false
    end.
Proof.
  intros Hs. unfold storage_unlock. rewrite Hs.
  destruct (refs s) as [|[|n]], (deleted s); reflexivity.
Qed.

Lemma release_slot self index zone s :
  slot_of (storage self) index = Some s -> entity s = Some zone ->
  slot_of (storage (release self index)) index
  = Some match refs s with
         | O => emptySlot
         | S _ => {| entity := Some (destream zone); refs := refs s; deleted := true |}
         end.
Proof.
  intros Hs Hz. unfold release, get.
  rewrite (storage_get_slot _ _ _ Hs), Hz. simpl.
  rewrite storage_release_slot, update_zone_slot.
  same_index.
  rewrite Hs. simpl. rewrite Hz. simpl. now destruct (refs s).
Qed.

(** C6. For an id with a live zone, [release] takes the id out of the
    checking list (if it was there), clears the memberships of the zone
    ([destream]) and only then hands the slot to the release of the pool:
    with no lock outstanding the zone is destroyed at once, and with a
    lock outstanding it stays, destreamed and marked for destruction.
    Other slots are not touched. For an id without a live zone (out of
    range or unoccupied) [release] changes nothing. *)
Theorem release_unchecks_and_destreams (self : GangZonesComponent) (index : Z) :
  (forall zone, get self index = Some zone ->
     (index ∉ checkingList (release self index)) /\
     checkingList (release self index) = checkingList self ∖ {[index]} /\
     storage (release self index)
       = storage_release (update_zone (storage self) index destream) index /\
     playersInside_ (destream zone) = ∅ /\
     (forall s, slot_of (storage self) index = Some s ->
        match refs s with
        | O => get (release self index) index = None
        | S _ =>
            get (release self index) index = Some (destream zone) /\
            slot_of (storage (release self index)) index
              = Some {| entity := Some (destream zone); refs := refs s;
                        deleted := true |}
        end) /\
     (forall j, j <> index ->
        slot_of (storage (release self index)) j = slot_of (storage self) j)) /\
  (get self index = None -> release self index = self).
Proof.
  split.
  - intros zone Hget.
    assert (Hlist : checkingList (release self index)
                    = checkingList self ∖ {[index]}).
    { unfold release, UniqueIDArray.valid, UniqueIDArray.remove.
      rewrite Hget. simpl. case_bool_decide as Hin; [reflexivity|].
      apply set_eq. intros k. rewrite elem_of_difference, elem_of_singleton.
      split; [|tauto]. intros Hk. split; [exact Hk|]. congruence. }
    split; [|split; [exact Hlist | split; [|split; [reflexivity | split]]]].
    + rewrite Hlist. intros [_ Hn]%elem_of_difference.
      apply Hn. now apply elem_of_singleton.
    + unfold release. now rewrite Hget.
    + intros s Hs.
      assert (Hz : entity s = Some zone)
        by (unfold get in Hget; now rewrite (storage_get_slot _ _ _ Hs) in Hget).
      pose proof (release_slot self index zone s Hs Hz) as Hslot.
      unfold get. rewrite (storage_get_slot _ _ _ Hslot).
      destruct (refs s); [reflexivity|]. now split.
    + intros j Hne. unfold release. rewrite Hget. simpl.
      rewrite storage_release_slot, update_zone_slot.
      destruct (decide (index = j)); [congruence | reflexivity].
  - intros Hnone. unfold release. now rewrite Hnone.
Qed.

(** *** Deferred release *)

(** C7. For a live zone: after [lock] and then [release], [get] still
    returns the zone (destreamed), whatever the counter was. When that
    lock is the only one outstanding, the following [unlock] brings the
    counter to 0, destroys the zone and returns true; [get] then returns
    null and one more [unlock] returns false and changes nothing. A
    [release] with the counter at 0 destroys at once. *)
Theorem release_is_deferred_while_locked
    (self : GangZonesComponent) (index : Z) (s : Slot) (zone : GangZone) :
  slot_of (storage self) index = Some s -> entity s = Some zone ->
  let held := release (lock self index) index in
  get held index = Some (destream zone) /\
  (refs s = 0%nat ->
     (unlock held index).1 = true /\
     slot_of (storage (unlock held index).2) index = Some emptySlot /\
     get (unlock held index).2 index = None /\
     unlock (unlock held index).2 index = (false, (unlock held index).2)) /\
  (refs s = 0%nat -> get (release self index) index = None).
Proof.
  intros Hs Hz held.
  assert (Hlocked : slot_of (storage (lock self index)) index
                    = Some {| entity := Some zone; refs := S (refs s);
                              deleted := deleted s |}).
  { unfold lock. simpl. rewrite storage_lock_slot.
    same_index.
    rewrite Hs. simpl. now rewrite Hz. }
  pose proof (release_slot (lock self index) index zone _ Hlocked eq_refl) as Hheld.
  fold held in Hheld. simpl in Hheld.
  split; [|split].
  - unfold get. now rewrite (storage_get_slot _ _ _ Hheld).
  - intros Hfree. rewrite Hfree in Hheld.
    assert (Hgone : slot_of (storage (unlock held index).2) index = Some emptySlot).
    { unfold unlock. simpl. rewrite storage_unlock_slot.
      same_index.
      now rewrite Hheld. }
    split; [|split; [exact Hgone | split]].
    + unfold unlock. simpl. now rewrite (storage_unlock_result _ _ _ Hheld).
    + unfold get. now rewrite (storage_get_slot _ _ _ Hgone).
    + destruct (unlock held index).2 as [slots checked] eqn:Hafter.
      simpl in Hgone. unfold unlock, storage_unlock. simpl. now rewrite Hgone.
  - intros Hfree.
    pose proof (release_slot self index zone s Hs Hz) as Hslot.
    rewrite Hfree in Hslot. unfold get.
    now rewrite (storage_get_slot _ _ _ Hslot).
Qed.

(** The example zone, locked once and then released. *)
Lemma release_is_deferred_while_locked_witness :
  let held := release (lock example_component 0) 0 in
  get held 0 = Some (destream example_zone) /\
  (unlock held 0).1 = true /\
  get (unlock held 0).2 0 = None /\
  unlock (unlock held 0).2 0 = (false, (unlock held 0).2).
Proof.
  destruct (release_is_deferred_while_locked example_component 0
              {| entity := Some example_zone; refs := 0; deleted := false |}
              example_zone eq_refl eq_refl) as [Hstill [Hdeferred _]].
  destruct (Hdeferred eq_refl) as [Htrue [_ [Hnull Hagain]]].
  cbv zeta. repeat split; assumption.
Defined.

(** *** Detach *)



Lemma onUpdate_entry_get_other self player playerPos i j :
  i <> j -> get (onUpdate_entry self player playerPos i).2 j = get self j.
Proof.
  intros Hne. unfold get, storage_get. now rewrite onUpdate_entry_other.
Qed.





(** *** The log across sweeps *)










(** *** The code run on the example world *)

Example containment_examples :
  isPlayerInZoneArea inside_square square = true /\
  isPlayerInZoneArea outside_square square = false /\
  isPlayerInZoneArea (Vector3.mk f4 f0 f32) square = true /\
  isPlayerInZoneArea (Vector3.mk S754_nan f1 f0) square = false.
Proof. vm_compute. repeat split; reflexivity. Qed.

(** In, in, out, out, in: events on ticks 1, 3 and 5 only. *)
Example events_per_tick :
  length <$> (ticks example_component
                (player7 <$> [inside_square; inside_square; outside_square;
                              outside_square; inside_square])).1
  = [1; 0; 1; 0; 1]%nat.
Proof. vm_compute. reflexivity. Qed.

Example unchecked_zone_is_silent :
  (onUpdate (useGangZoneCheck example_component 0 false)
     (player7 inside_square)).1 = [].
Proof. vm_compute. reflexivity. Qed.

Example release_then_get :
  get (release example_component 0) 0 = None /\
  get (release (lock example_component 0) 0) 0 = Some (destream example_zone) /\
  (unlock (release (lock (lock example_component 0) 0) 0) 0).1 = false.
Proof. vm_compute. repeat split; reflexivity. Qed.

End GangZonesSpec.

(** * Further properties *)

(** ** The identifier table: round trips, invariants, capacity *)

Module PlayerGangZoneDataExtra.
Import PlayerGangZoneData PlayerGangZoneDataSpec.

Section Table.

Variable GANG_ZONE_POOL_SIZE : nat.
Variable INVALID_GANG_ZONE_ID : Z.

Local Abbreviation scan := (scan INVALID_GANG_ZONE_ID).
Local Abbreviation unused := (unused INVALID_GANG_ZONE_ID).
Local Abbreviation unusedSlot := (unusedSlot INVALID_GANG_ZONE_ID).
Local Abbreviation isUnused := (isUnused INVALID_GANG_ZONE_ID).
Local Abbreviation findUnusedID := (findUnusedID GANG_ZONE_POOL_SIZE INVALID_GANG_ZONE_ID).
Local Abbreviation getExternalID := (getExternalID GANG_ZONE_POOL_SIZE INVALID_GANG_ZONE_ID).
Local Abbreviation getInternalID := (getInternalID GANG_ZONE_POOL_SIZE INVALID_GANG_ZONE_ID).
Local Abbreviation reserveExternalID := (reserveExternalID GANG_ZONE_POOL_SIZE INVALID_GANG_ZONE_ID).
Local Abbreviation reserveInternalID := (reserveInternalID GANG_ZONE_POOL_SIZE INVALID_GANG_ZONE_ID).
Local Abbreviation releaseExternalID := (releaseExternalID GANG_ZONE_POOL_SIZE INVALID_GANG_ZONE_ID).
Local Abbreviation releaseInternalID := (releaseInternalID GANG_ZONE_POOL_SIZE INVALID_GANG_ZONE_ID).
Local Abbreviation reset := (reset GANG_ZONE_POOL_SIZE INVALID_GANG_ZONE_ID).
Local Abbreviation emptyTable := (emptyTable GANG_ZONE_POOL_SIZE INVALID_GANG_ZONE_ID).
Local Abbreviation sentinel_off_range :=
  (sentinel_off_range GANG_ZONE_POOL_SIZE INVALID_GANG_ZONE_ID).
Local Abbreviation one_sided := (one_sided INVALID_GANG_ZONE_ID).
Local Abbreviation reserve := (reserve GANG_ZONE_POOL_SIZE INVALID_GANG_ZONE_ID).
Local Abbreviation reserve_all := (reserve_all GANG_ZONE_POOL_SIZE INVALID_GANG_ZONE_ID).

(** *** What a search can return *)

(** A search answers the sentinel or a position whose slot passes the
    test; nothing is assumed about the table. *)
Lemma scan_cases test (t : list ExternaGangZoneID) n : forall i,
  scan test t i n = INVALID_GANG_ZONE_ID \/
  exists k e, scan test t i n = Z.of_nat k /\ t !! k = Some e /\ test e = true.
Proof.
  induction n as [|n IH]; intros i; simpl; [now left|].
  destruct (t !! i) as [e|] eqn:E; [|now left].
  destruct (test e) eqn:Et; [right; eauto | apply IH].
Qed.

(** A write that does not change the outcome of the test on any slot
    does not change the search. *)
Lemma scan_alter test (g : ExternaGangZoneID -> ExternaGangZoneID)
    (t : list ExternaGangZoneID) k n : forall i,
  (forall e, test (g e) = test e) ->
  scan test (alter g k t) i n = scan test t i n.
Proof.
  induction n as [|n IH]; intros i Hg; simpl; [reflexivity|].
  destruct (decide (k = i)) as [->|Hne].
  - rewrite list_lookup_alter_eq. destruct (t !! i) as [e|]; simpl; [|reflexivity].
    rewrite Hg. destruct (test e); [reflexivity | now apply IH].
  - rewrite list_lookup_alter_ne by exact Hne.
    destruct (t !! i) as [e|]; [|reflexivity].
    destruct (test e); [reflexivity | now apply IH].
Qed.

(** The shape of the four mutators: search, then write the slot found. *)
Lemma mutator_cases test (g : ExternaGangZoneID -> ExternaGangZoneID)
    (t : list ExternaGangZoneID) (i : Z) :
  i = scan test t 0 GANG_ZONE_POOL_SIZE ->
  (if (i =? INVALID_GANG_ZONE_ID)%Z then (INVALID_GANG_ZONE_ID, t)
   else (i, alter g (Z.to_nat i) t)) = (INVALID_GANG_ZONE_ID, t) \/
  exists k e, t !! k = Some e /\ test e = true /\
    (if (i =? INVALID_GANG_ZONE_ID)%Z then (INVALID_GANG_ZONE_ID, t)
     else (i, alter g (Z.to_nat i) t)) = (Z.of_nat k, <[k := g e]> t).
Proof.
  intros ->.
  destruct (scan _ t 0 GANG_ZONE_POOL_SIZE =? _)%Z eqn:E; [now left|].
  destruct (scan_cases test t GANG_ZONE_POOL_SIZE 0%nat) as [Hs | [k [e [Hs [Hl Ht]]]]].
  - apply Z.eqb_neq in E. contradiction.
  - right. exists k, e. rewrite Hs, Nat2Z.id, (alter_at g t k e Hl). auto.
Qed.

(** *** Invariants *)

Lemma one_sided_insert (t : list ExternaGangZoneID) k e :
  one_sided t ->
  Global e = INVALID_GANG_ZONE_ID \/ Private e = INVALID_GANG_ZONE_ID ->
  one_sided (<[k := e]> t).
Proof.
  intros Ht He i e' Hl. destruct (decide (k = i)) as [->|Hne].
  - destruct (decide (i < length t)%nat) as [Hlt|Hge].
    + rewrite list_lookup_insert_eq in Hl by exact Hlt. now injection Hl as <-.
    + rewrite list_insert_ge in Hl by lia. now apply (Ht i).
  - rewrite list_lookup_insert_ne in Hl by exact Hne. now apply (Ht i).
Qed.

(** X3. The table keeps its size, and no slot ever holds a value on
    both sides: the fresh table and a [reset] one have the property, and
    each of the four mutators preserves it, whatever its arguments. *)
Theorem table_stays_one_sided (t : list ExternaGangZoneID) (v : Z) :
  one_sided t ->
  (one_sided (reserveExternalID t v).2 /\ length (reserveExternalID t v).2 = length t) /\
  (one_sided (reserveInternalID t v).2 /\ length (reserveInternalID t v).2 = length t) /\
  (one_sided (releaseExternalID t v).2 /\ length (releaseExternalID t v).2 = length t) /\
  (one_sided (releaseInternalID t v).2 /\ length (releaseInternalID t v).2 = length t) /\
  (length t = GANG_ZONE_POOL_SIZE -> one_sided (reset t)) /\
  one_sided emptyTable.
Proof.
  intros Hone.
  assert (Hmut : forall test g,
            (forall e, test e = true ->
                       Global (g e) = INVALID_GANG_ZONE_ID \/
                       Private (g e) = INVALID_GANG_ZONE_ID) ->
            let i := scan test t 0 GANG_ZONE_POOL_SIZE in
            let result := if (i =? INVALID_GANG_ZONE_ID)%Z
                          then (INVALID_GANG_ZONE_ID, t)
                          else (i, alter g (Z.to_nat i) t) in
            one_sided result.2 /\ length result.2 = length t).
  { intros test g Hg. cbv zeta.
    destruct (mutator_cases test g t _ eq_refl) as [H | [k [e [Hl [Ht H]]]]];
      rewrite H; simpl.
    - now split.
    - split; [|apply length_insert]. apply one_sided_insert; auto. }
  assert (Hfresh : one_sided (replicate GANG_ZONE_POOL_SIZE unusedSlot)).
  { intros i e Hl. apply lookup_replicate in Hl as [-> _]. now left. }
  repeat split.
  - apply (Hmut isUnused (setGlobal v)). intros e He.
    apply isUnused_spec in He as [_ Hp]. now right.
  - apply (Hmut isUnused (setGlobal v)). intros e He.
    apply isUnused_spec in He as [_ Hp]. now right.
  - apply (Hmut isUnused (setPrivate v)). intros e He.
    apply isUnused_spec in He as [Hg _]. now left.
  - apply (Hmut isUnused (setPrivate v)). intros e He.
    apply isUnused_spec in He as [Hg _]. now left.
  - apply (Hmut (fun e => (Global e =? v)%Z) (setGlobal INVALID_GANG_ZONE_ID)).
    intros e _. now left.
  - apply (Hmut (fun e => (Global e =? v)%Z) (setGlobal INVALID_GANG_ZONE_ID)).
    intros e _. now left.
  - apply (Hmut (fun e => (Private e =? v)%Z) (setPrivate INVALID_GANG_ZONE_ID)).
    intros e _. now right.
  - apply (Hmut (fun e => (Private e =? v)%Z) (setPrivate INVALID_GANG_ZONE_ID)).
    intros e _. now right.
  - intros Hlen. now rewrite (reset_replicate _ _ t Hlen).
  - now rewrite emptyTable_replicate.
Qed.

(** *** The two sides do not see each other *)

(** X4. A reservation or a release on one side changes no lookup on the
    other side, for any value looked up. *)
Theorem sides_are_independent (t : list ExternaGangZoneID) (v w : Z) :
  getInternalID (reserveExternalID t v).2 w = getInternalID t w /\
  getInternalID (releaseExternalID t v).2 w = getInternalID t w /\
  getExternalID (reserveInternalID t v).2 w = getExternalID t w /\
  getExternalID (releaseInternalID t v).2 w = getExternalID t w.
Proof.
  assert (Hkeep : forall (test0 test : ExternaGangZoneID -> bool) g,
            (forall e, test (g e) = test e) ->
            let i := scan test0 t 0 GANG_ZONE_POOL_SIZE in
            let result := if (i =? INVALID_GANG_ZONE_ID)%Z
                          then (INVALID_GANG_ZONE_ID, t)
                          else (i, alter g (Z.to_nat i) t) in
            scan test result.2 0 GANG_ZONE_POOL_SIZE
            = scan test t 0 GANG_ZONE_POOL_SIZE).
  { intros test0 test g Hg. cbv zeta.
    destruct (scan test0 t 0 GANG_ZONE_POOL_SIZE =? _)%Z; simpl; [reflexivity|].
    now apply scan_alter. }
  repeat split.
  - apply (Hkeep isUnused (fun e => (Private e =? w)%Z) (setGlobal v)). reflexivity.
  - apply (Hkeep (fun e => (Global e =? v)%Z) (fun e => (Private e =? w)%Z)
             (setGlobal INVALID_GANG_ZONE_ID)). reflexivity.
  - apply (Hkeep isUnused (fun e => (Global e =? w)%Z) (setPrivate v)). reflexivity.
  - apply (Hkeep (fun e => (Private e =? v)%Z) (fun e => (Global e =? w)%Z)
             (setPrivate INVALID_GANG_ZONE_ID)). reflexivity.
Qed.

(** *** Round trips *)

Lemma scan_cases_lowest test (t : list ExternaGangZoneID) n : forall i,
  scan test t i n = INVALID_GANG_ZONE_ID \/
  exists k e, scan test t i n = Z.of_nat k /\ t !! k = Some e /\ test e = true /\
    forall j e', (i <= j < k)%nat -> t !! j = Some e' -> test e' = false.
Proof.
  induction n as [|n IH]; intros i; simpl; [now left|].
  destruct (t !! i) as [e|] eqn:E; [|now left].
  destruct (test e) eqn:Et.
  - right. exists i, e. repeat split; auto. intros j e' Hj. lia.
  - destruct (IH (S i)) as [H | [k [e0 [Hs [Hl [Ht Hlow]]]]]]; [now left|].
    right. exists k, e0. repeat split; auto. intros j e' Hj Hl'.
    destruct (decide (j = i)) as [->|Hne]; [congruence|]. apply (Hlow j); [lia|done].
Qed.

Lemma reserveExternalID_result (t : list ExternaGangZoneID) v :
  (reserveExternalID t v).1 = findUnusedID t.
Proof.
  unfold PlayerGangZoneData.reserveExternalID. cbv zeta.
  destruct (_ =? _)%Z eqn:E; simpl; [|reflexivity]. apply Z.eqb_eq in E. now rewrite E.
Qed.

Lemma reserveInternalID_result (t : list ExternaGangZoneID) v :
  (reserveInternalID t v).1 = findUnusedID t.
Proof.
  unfold PlayerGangZoneData.reserveInternalID. cbv zeta.
  destruct (_ =? _)%Z eqn:E; simpl; [|reflexivity]. apply Z.eqb_eq in E. now rewrite E.
Qed.

(** A reservation that succeeds found the lowest free slot. *)
Lemma findUnusedID_found (t : list ExternaGangZoneID) :
  findUnusedID t <> INVALID_GANG_ZONE_ID ->
  exists k e, lowest unused t k /\ t !! k = Some e /\ unused e.
Proof.
  intros Hfound. unfold PlayerGangZoneData.findUnusedID in Hfound.
  destruct (scan_cases_lowest isUnused t GANG_ZONE_POOL_SIZE 0%nat)
    as [H | [k [e [_ [Hl [Ht Hlow]]]]]]; [contradiction|].
  apply isUnused_spec in Ht. exists k, e.
  split; [|split; [exact Hl | exact Ht]].
  split; [exists e; split; [exact Hl | exact Ht]|].
  intros j e' Hj Hl' Hu. apply isUnused_spec in Hu.
  rewrite (Hlow j e') in Hu; [discriminate | lia | done].
Qed.

Lemma lowest_after_write (P : ExternaGangZoneID -> Prop)
    (t : list ExternaGangZoneID) k e e' :
  t !! k = Some e -> P e' ->
  (forall j ej, (j < k)%nat -> t !! j = Some ej -> ~ P ej) ->
  lowest P (<[k := e']> t) k.
Proof.
  intros Hl HP Hbelow. split.
  - exists e'. split; [|exact HP].
    apply list_lookup_insert_eq. eapply lookup_lt_Some; eauto.
  - intros j ej Hj Hlj. rewrite list_lookup_insert_ne in Hlj by lia.
    now apply (Hbelow j).
Qed.

(** X1. A value that is not yet held on a side and is then reserved on
    it is found again at the slot the reservation returned. *)
Theorem reserve_then_lookup (t : list ExternaGangZoneID) (v : Z) :
  sentinel_off_range -> length t = GANG_ZONE_POOL_SIZE ->
  ((forall i e, t !! i = Some e -> Global e <> v) ->
   (reserveExternalID t v).1 <> INVALID_GANG_ZONE_ID ->
   getExternalID (reserveExternalID t v).2 v = (reserveExternalID t v).1) /\
  ((forall i e, t !! i = Some e -> Private e <> v) ->
   (reserveInternalID t v).1 <> INVALID_GANG_ZONE_ID ->
   getInternalID (reserveInternalID t v).2 v = (reserveInternalID t v).1).
Proof.
  intros Hoff Hlen. split; intros Hnew Hok.
  - rewrite reserveExternalID_result in Hok.
    destruct (findUnusedID_found t Hok) as [k [e [Hlow [Hl _]]]].
    rewrite (reserveExternalID_at _ _ t v k e Hoff Hlen Hlow Hl). simpl.
    apply getExternalID_lowest; [now rewrite length_insert|].
    apply lowest_after_write with (e := e); auto.
    intros j ej _ Hlj. now apply (Hnew j).
  - rewrite reserveInternalID_result in Hok.
    destruct (findUnusedID_found t Hok) as [k [e [Hlow [Hl _]]]].
    rewrite (reserveInternalID_at _ _ t v k e Hoff Hlen Hlow Hl). simpl.
    apply getInternalID_lowest; [now rewrite length_insert|].
    apply lowest_after_write with (e := e); auto.
    intros j ej _ Hlj. now apply (Hnew j).
Qed.

(** X2. Releasing a value right after it was reserved, when it was not
    held on that side before, answers the slot of the reservation and
    gives back the table as it was. *)
Theorem reserve_then_release (t : list ExternaGangZoneID) (v : Z) :
  sentinel_off_range -> length t = GANG_ZONE_POOL_SIZE ->
  ((forall i e, t !! i = Some e -> Global e <> v) ->
   (reserveExternalID t v).1 <> INVALID_GANG_ZONE_ID ->
   releaseExternalID (reserveExternalID t v).2 v = ((reserveExternalID t v).1, t)) /\
  ((forall i e, t !! i = Some e -> Private e <> v) ->
   (reserveInternalID t v).1 <> INVALID_GANG_ZONE_ID ->
   releaseInternalID (reserveInternalID t v).2 v = ((reserveInternalID t v).1, t)).
Proof.
  intros Hoff Hlen. split; intros Hnew Hok.
  - rewrite reserveExternalID_result in Hok.
    destruct (findUnusedID_found t Hok) as [k [e [Hlow [Hl [Hg Hp]]]]].
    rewrite (reserveExternalID_at _ _ t v k e Hoff Hlen Hlow Hl). simpl.
    assert (Hheld : lowest (fun e => Global e = v) (<[k := setGlobal v e]> t) k).
    { apply lowest_after_write with (e := e); auto.
      intros j ej _ Hlj. now apply (Hnew j). }
    rewrite (releaseExternalID_at _ _ _ v k (setGlobal v e) Hoff); auto.
    + rewrite list_insert_insert_eq. f_equal. apply list_insert_id.
      rewrite Hl. f_equal. destruct e as [p g]. simpl in *. now subst g.
    + now rewrite length_insert.
    + apply list_lookup_insert_eq. eapply lookup_lt_Some; eauto.
  - rewrite reserveInternalID_result in Hok.
    destruct (findUnusedID_found t Hok) as [k [e [Hlow [Hl [Hg Hp]]]]].
    rewrite (reserveInternalID_at _ _ t v k e Hoff Hlen Hlow Hl). simpl.
    assert (Hheld : lowest (fun e => Private e = v) (<[k := setPrivate v e]> t) k).
    { apply lowest_after_write with (e := e); auto.
      intros j ej _ Hlj. now apply (Hnew j). }
    rewrite (releaseInternalID_at _ _ _ v k (setPrivate v e) Hoff); auto.
    + rewrite list_insert_insert_eq. f_equal. apply list_insert_id.
      rewrite Hl. f_equal. destruct e as [p g]. simpl in *. now subst p.
    + now rewrite length_insert.
    + apply list_lookup_insert_eq. eapply lookup_lt_Some; eauto.
Qed.

(** *** Reserving the sentinel *)

(** X6. Reserving the sentinel value itself answers the lowest free
    slot but takes nothing: the table is unchanged, so the slot is still
    free for the next reservation. *)
Theorem reserving_the_sentinel_takes_nothing (t : list ExternaGangZoneID) (i : nat) :
  sentinel_off_range -> length t = GANG_ZONE_POOL_SIZE ->
  lowest unused t i ->
  reserveExternalID t INVALID_GANG_ZONE_ID = (Z.of_nat i, t) /\
  reserveInternalID t INVALID_GANG_ZONE_ID = (Z.of_nat i, t) /\
  findUnusedID (reserveExternalID t INVALID_GANG_ZONE_ID).2 = Z.of_nat i.
Proof.
  intros Hoff Hlen Hlow. pose proof Hlow as [[e [Hl [Hg Hp]]] _].
  assert (Hsame : forall e', e' = e -> <[i := e']> t = t).
  { intros e' ->. now apply list_insert_id. }
  rewrite (reserveExternalID_at _ _ t _ i e Hoff Hlen Hlow Hl).
  rewrite (reserveInternalID_at _ _ t _ i e Hoff Hlen Hlow Hl).
  assert (Hge : setGlobal INVALID_GANG_ZONE_ID e = e)
    by (destruct e as [p g]; simpl in *; now subst g).
  assert (Hpe : setPrivate INVALID_GANG_ZONE_ID e = e)
    by (destruct e as [p g]; simpl in *; now subst p).
  rewrite (Hsame _ Hge), (Hsame _ Hpe). repeat split.
  simpl. now apply findUnusedID_lowest.
Qed.

(** *** A value reserved twice *)

(** X7. A reservation does not look for the value in the table: when
    [v] is already held on the global side (by slot [i] only) and slot
    [k] is the lowest free one, reserving [v] again takes slot [k] as
    well. Lookups answer the lower of the two slots, one release frees
    only that one, and the value is then still found at the other. *)
Theorem double_reservation_needs_two_releases
    (t : list ExternaGangZoneID) (v : Z) (i k : nat) (ei : ExternaGangZoneID) :
  sentinel_off_range -> length t = GANG_ZONE_POOL_SIZE ->
  v <> INVALID_GANG_ZONE_ID ->
  t !! i = Some ei -> Global ei = v ->
  (forall j e, t !! j = Some e -> Global e = v -> j = i) ->
  lowest unused t k ->
  let t1 := (reserveExternalID t v).2 in
  (reserveExternalID t v).1 = Z.of_nat k /\ k <> i /\
  getExternalID t1 v = Z.of_nat (Nat.min i k) /\
  (releaseExternalID t1 v).1 = Z.of_nat (Nat.min i k) /\
  getExternalID (releaseExternalID t1 v).2 v = Z.of_nat (Nat.max i k).
Proof.
  intros Hoff Hlen Hv Hli Hgi Honly Hlow t1.
  pose proof Hlow as [[ek [Hlk [Hgk Hpk]]] _].
  assert (Hne : k <> i).
  { intros ->. rewrite Hli in Hlk. injection Hlk as ->. congruence. }
  assert (Ht1 : t1 = <[k := setGlobal v ek]> t).
  { unfold t1. now rewrite (reserveExternalID_at _ _ t v k ek Hoff Hlen Hlow Hlk). }
  assert (Hlen1 : length t1 = GANG_ZONE_POOL_SIZE)
    by (rewrite Ht1; now rewrite length_insert).
  assert (Hk1 : t1 !! k = Some (setGlobal v ek)).
  { rewrite Ht1. apply list_lookup_insert_eq. eapply lookup_lt_Some; eauto. }
  assert (Hi1 : t1 !! i = Some ei)
    by (rewrite Ht1, list_lookup_insert_ne by exact Hne; exact Hli).
  assert (Hholders : forall j e, t1 !! j = Some e -> Global e = v -> j = i \/ j = k).
  { intros j e Hl Hg. destruct (decide (j = k)) as [|Hjk]; [now right|]. left.
    rewrite Ht1, list_lookup_insert_ne in Hl by congruence. now apply (Honly j e). }
  set (lo := Nat.min i k). set (hi := Nat.max i k).
  assert (Hlo : exists elo, t1 !! lo = Some elo /\ Global elo = v).
  { unfold lo. destruct (Nat.min_dec i k) as [-> | ->]; eauto. }
  assert (Hhi : exists ehi, t1 !! hi = Some ehi /\ Global ehi = v).
  { unfold hi. destruct (Nat.max_dec i k) as [-> | ->]; eauto. }
  destruct Hlo as [elo [Hllo Hglo]]. destruct Hhi as [ehi [Hlhi Hghi]].
  assert (Hlowest : lowest (fun e => Global e = v) t1 lo).
  { split; [eauto|]. intros j e Hj Hl Hg.
    destruct (Hholders j e Hl Hg); unfold lo in Hj; lia. }
  rewrite reserveExternalID_result, (findUnusedID_lowest _ _ t k Hlen Hlow).
  split; [reflexivity|]. split; [exact Hne|].
  split; [now apply getExternalID_lowest|].
  rewrite (releaseExternalID_at _ _ t1 v lo elo Hoff Hlen1 Hlowest Hllo). simpl.
  split; [reflexivity|].
  apply getExternalID_lowest; [now rewrite length_insert|].
  assert (Hlohi : lo <> hi) by (unfold lo, hi; lia).
  split.
  - exists ehi. split; [|exact Hghi].
    now rewrite list_lookup_insert_ne by exact Hlohi.
  - intros j e Hj Hl Hg. destruct (decide (j = lo)) as [->|Hjlo].
    + rewrite list_lookup_insert_eq in Hl by (eapply lookup_lt_Some; eauto).
      injection Hl as <-. simpl in Hg. congruence.
    + rewrite list_lookup_insert_ne in Hl by congruence.
      destruct (Hholders j e Hl Hg); unfold lo, hi in *; lia.
Qed.

(** *** Slots are handed out in order, up to the capacity *)

(** The first [j] slots are taken and the others are free. *)
Lemma filled_step (t : list ExternaGangZoneID) (j : nat) (request : side * Z) :
  sentinel_off_range -> length t = GANG_ZONE_POOL_SIZE ->
  request.2 <> INVALID_GANG_ZONE_ID ->
  (forall m e, t !! m = Some e -> unused e <-> (j <= m)%nat) ->
  (j < GANG_ZONE_POOL_SIZE)%nat ->
  (reserve t request).1 = Z.of_nat j /\
  length (reserve t request).2 = GANG_ZONE_POOL_SIZE /\
  (forall m e, (reserve t request).2 !! m = Some e -> unused e <-> (S j <= m)%nat).
Proof.
  intros Hoff Hlen Hv Hfilled Hj.
  destruct (lookup_lt_is_Some_2 t j) as [e Hl]; [lia|].
  assert (He : unused e) by (apply (Hfilled j e Hl); lia).
  assert (Hlow : lowest unused t j).
  { split; [eauto|]. intros m e' Hm Hl' Hu. apply (Hfilled m e' Hl') in Hu. lia. }
  assert (Hstep : forall g, ~ unused (g e) ->
            (forall m e', <[j := g e]> t !! m = Some e' -> unused e' <-> (S j <= m)%nat)).
  { intros g Hg m e' Hl'. destruct (decide (j = m)) as [<-|Hne].
    - rewrite list_lookup_insert_eq in Hl' by lia. injection Hl' as <-.
      split; [contradiction | lia].
    - rewrite list_lookup_insert_ne in Hl' by exact Hne.
      rewrite (Hfilled m e' Hl'). lia. }
  destruct request as [[|] v]; unfold PlayerGangZoneData.reserve; simpl in *.
  - rewrite (reserveExternalID_at _ _ t v j e Hoff Hlen Hlow Hl). simpl.
    split; [reflexivity|]. split; [now rewrite length_insert|].
    apply (Hstep (setGlobal v)). intros [Hg _]. simpl in Hg. congruence.
  - rewrite (reserveInternalID_at _ _ t v j e Hoff Hlen Hlow Hl). simpl.
    split; [reflexivity|]. split; [now rewrite length_insert|].
    apply (Hstep (setPrivate v)). intros [_ Hp]. simpl in Hp. congruence.
Qed.

Lemma full_step (t : list ExternaGangZoneID) (request : side * Z) :
  (forall m e, t !! m = Some e -> ~ unused e) ->
  reserve t request = (INVALID_GANG_ZONE_ID, t).
Proof.
  intros Hfull.
  pose proof (findUnusedID_full GANG_ZONE_POOL_SIZE INVALID_GANG_ZONE_ID t Hfull)
    as Hnone.
  destruct request as [[|] v];
    unfold PlayerGangZoneData.reserve, PlayerGangZoneData.reserveExternalID,
      PlayerGangZoneData.reserveInternalID; simpl;
    now rewrite Hnone, Z.eqb_refl.
Qed.

Lemma reserve_all_in_order (requests : list (side * Z)) :
  forall (t : list ExternaGangZoneID) (p : nat),
  sentinel_off_range -> length t = GANG_ZONE_POOL_SIZE ->
  Forall (fun request => request.2 <> INVALID_GANG_ZONE_ID) requests ->
  (forall m e, t !! m = Some e -> unused e <-> (Nat.min p GANG_ZONE_POOL_SIZE <= m)%nat) ->
  (reserve_all t requests).1
  = (fun j => if (j <? GANG_ZONE_POOL_SIZE)%nat then Z.of_nat j
              else INVALID_GANG_ZONE_ID) <$> seq p (length requests).
Proof.
  induction requests as [|request requests IH]; intros t p Hoff Hlen Hvs Hfilled;
    [reflexivity|].
  apply Forall_cons in Hvs as [Hv Hvs]. simpl.
  destruct (p <? GANG_ZONE_POOL_SIZE)%nat eqn:Hp.
  - apply Nat.ltb_lt in Hp. rewrite Nat.min_l in Hfilled by lia.
    destruct (filled_step t p request Hoff Hlen Hv Hfilled Hp) as [Hr [Hlen' Hfilled']].
    rewrite Hr. f_equal. apply IH; auto.
    intros m e Hl. rewrite (Hfilled' m e Hl).
    destruct (Nat.min_spec (S p) GANG_ZONE_POOL_SIZE) as [[? ->] | [? ->]]; lia.
  - apply Nat.ltb_ge in Hp. rewrite Nat.min_r in Hfilled by lia.
    rewrite full_step.
    + simpl. f_equal. apply IH; auto.
      intros m e Hl. rewrite (Hfilled m e Hl). rewrite Nat.min_r by lia. reflexivity.
    + intros m e Hl Hu. apply (Hfilled m e Hl) in Hu.
      apply lookup_lt_Some in Hl. lia.
Qed.

(** X5. Starting from the fresh table, a run of reservations of real
    values, on either side in any mix, is answered 0, 1, 2, ... in order
    until [GANG_ZONE_POOL_SIZE] slots are taken; every later one answers
    the sentinel. *)
Theorem slots_are_handed_out_in_order (requests : list (side * Z)) :
  sentinel_off_range ->
  Forall (fun request => request.2 <> INVALID_GANG_ZONE_ID) requests ->
  (reserve_all emptyTable requests).1
  = (fun j => if (j <? GANG_ZONE_POOL_SIZE)%nat then Z.of_nat j
              else INVALID_GANG_ZONE_ID) <$> seq 0 (length requests).
Proof.
  intros Hoff Hvs. apply reserve_all_in_order; auto.
  - rewrite emptyTable_replicate. apply length_replicate.
  - intros m e Hl. rewrite emptyTable_replicate in Hl.
    apply lookup_replicate in Hl as [-> _]. simpl.
    split; [lia | intros _; now split].
Qed.

End Table.

(** *** Instances, with four slots and the sentinel -1 *)

Lemma table_stays_one_sided_witness :
  one_sided (-1)
    (reserveExternalID 4 (-1) [ {| Private := 3; Global := -1 |};
                                {| Private := -1; Global := -1 |};
                                {| Private := -1; Global := 8 |};
                                {| Private := -1; Global := -1 |} ] 9).2.
Proof.
  set (t := [ {| Private := 3; Global := -1 |}; {| Private := -1; Global := -1 |};
              {| Private := -1; Global := 8 |}; {| Private := -1; Global := -1 |} ]).
  assert (Hone : one_sided (-1) t).
  { intros [|[|[|[|i]]]] e Hl; try discriminate Hl; injection Hl as <-;
      first [now left | now right]. }
  exact (proj1 (proj1 (table_stays_one_sided 4 (-1) t 9 Hone))).
Defined.

Lemma reserve_then_lookup_witness :
  let t := [ {| Private := 3; Global := -1 |}; {| Private := -1; Global := -1 |} ] in
  getExternalID 2 (-1) (reserveExternalID 2 (-1) t 9).2 9
  = (reserveExternalID 2 (-1) t 9).1.
Proof.
  cbv zeta.
  set (t := [ {| Private := 3; Global := -1 |}; {| Private := -1; Global := -1 |} ]).
  assert (Hoff : sentinel_off_range 2 (-1)) by (left; reflexivity).
  assert (Hnew : forall i e, t !! i = Some e -> Global e <> 9%Z).
  { intros [|[|i]] e Hl; try discriminate Hl; injection Hl as <-; discriminate. }
  assert (Hok : (reserveExternalID 2 (-1) t 9).1 <> (-1)%Z)
    by (vm_compute; discriminate).
  exact (proj1 (reserve_then_lookup 2 (-1) t 9 Hoff eq_refl) Hnew Hok).
Defined.

Lemma reserve_then_release_witness :
  let t := [ {| Private := 3; Global := -1 |}; {| Private := -1; Global := -1 |} ] in
  releaseExternalID 2 (-1) (reserveExternalID 2 (-1) t 9).2 9
  = ((reserveExternalID 2 (-1) t 9).1, t).
Proof.
  cbv zeta.
  set (t := [ {| Private := 3; Global := -1 |}; {| Private := -1; Global := -1 |} ]).
  assert (Hoff : sentinel_off_range 2 (-1)) by (left; reflexivity).
  assert (Hnew : forall i e, t !! i = Some e -> Global e <> 9%Z).
  { intros [|[|i]] e Hl; try discriminate Hl; injection Hl as <-; discriminate. }
  assert (Hok : (reserveExternalID 2 (-1) t 9).1 <> (-1)%Z)
    by (vm_compute; discriminate).
  exact (proj1 (reserve_then_release 2 (-1) t 9 Hoff eq_refl) Hnew Hok).
Defined.

Lemma reserving_the_sentinel_takes_nothing_witness :
  let t := [ {| Private := 3; Global := -1 |}; {| Private := -1; Global := -1 |} ] in
  reserveExternalID 2 (-1) t (-1) = (1%Z, t).
Proof.
  cbv zeta.
  set (t := [ {| Private := 3; Global := -1 |}; {| Private := -1; Global := -1 |} ]).
  assert (Hoff : sentinel_off_range 2 (-1)) by (left; reflexivity).
  assert (Hlow : lowest (unused (-1)) t 1).
  { split.
    - exists {| Private := -1; Global := -1 |}. repeat split.
    - intros [|j] e Hj Hl; [|lia]. injection Hl as <-. intros [_ Hp]. discriminate Hp. }
  exact (proj1 (reserving_the_sentinel_takes_nothing 2 (-1) t 1 Hoff eq_refl Hlow)).
Defined.

Lemma double_reservation_needs_two_releases_witness :
  let t := [ {| Private := -1; Global := 9 |}; {| Private := -1; Global := -1 |} ] in
  let t1 := (reserveExternalID 2 (-1) t 9).2 in
  (reserveExternalID 2 (-1) t 9).1 = 1%Z /\
  getExternalID 2 (-1) (releaseExternalID 2 (-1) t1 9).2 9 = 1%Z.
Proof.
  cbv zeta.
  assert (Hoff : sentinel_off_range 2 (-1)) by (left; reflexivity).
  assert (Hfree : lowest (unused (-1))
                    [ {| Private := -1; Global := 9 |};
                      {| Private := -1; Global := -1 |} ] 1).
  { split.
    - exists {| Private := -1; Global := -1 |}. repeat split.
    - intros [|j] e Hj Hl; [|lia]. injection Hl as <-. intros [Hg _]. discriminate Hg. }
  assert (Honly : forall j e,
            [ {| Private := -1; Global := 9 |};
              {| Private := -1; Global := -1 |} ] !! j = Some e ->
            Global e = 9%Z -> j = 0%nat).
  { intros [|[|j]] e Hl Hg; try reflexivity; try discriminate Hl.
    injection Hl as <-. discriminate Hg. }
  assert (Hreal : 9%Z <> (-1)%Z) by discriminate.
  destruct (double_reservation_needs_two_releases 2 (-1)
              [ {| Private := -1; Global := 9 |}; {| Private := -1; Global := -1 |} ]
              9 0 1 {| Private := -1; Global := 9 |} Hoff eq_refl
              Hreal eq_refl eq_refl Honly Hfree)
    as [Hfirst [_ [_ [_ Hstill]]]].
  split; [exact Hfirst | exact Hstill].
Defined.

Lemma slots_are_handed_out_in_order_witness :
  (reserve_all 2 (-1) (emptyTable 2 (-1))
     [ (External, 5%Z); (Internal, 7%Z); (External, 9%Z) ]).1
  = [0%Z; 1%Z; (-1)%Z].
Proof.
  assert (Hoff : sentinel_off_range 2 (-1)) by (left; reflexivity).
  assert (Hreal : Forall (fun request : side * Z => request.2 <> (-1)%Z)
                    [ (External, 5%Z); (Internal, 7%Z); (External, 9%Z) ])
    by (repeat constructor; discriminate).
  exact (slots_are_handed_out_in_order 2 (-1) _ Hoff Hreal).
Defined.

End PlayerGangZoneDataExtra.

(** ** The timer identifiers: order, reuse, the result 0 *)

Module PawnTimerImplExtra.
Import PawnTimerImpl PawnTimerImplSpec.

Section Timers.

Variable ITimer : Type.
Variable UINT_MAX : N.

Local Abbreviation insert_loop := (insert_loop ITimer UINT_MAX).
Local Abbreviation insert := (insert ITimer UINT_MAX).
Local Abbreviation insert_all := (insert_all ITimer UINT_MAX).
Local Abbreviation initial := (initial ITimer).
Local Abbreviation remove := (remove ITimer).
Local Abbreviation incr := (incr UINT_MAX).
Local Abbreviation well_formed := (well_formed ITimer UINT_MAX).
Local Abbreviation full := (full ITimer UINT_MAX).
Local Abbreviation loop_post := (loop_post ITimer UINT_MAX).

(** *** What one call does, case by case *)

(** [insert] either found the free key [r] and stored the timer there,
    moving the cursor behind it, or met a full pool and changed nothing
    but the cursor. *)
Lemma insert_cases (self : PawnTimerImpl ITimer) (timer : ITimer) :
  well_formed self ->
  (exists r,
     loop_post (pool self) (idx self) false (LoopExit r) /\
     insert self timer
     = (r, {| pool := <[r := timer]> (pool self);
              idx := if (r =? UINT_MAX)%N then 0%N else (r + 1)%N |})) \/
  (full (pool self) /\
   insert self timer = (0%N, {| pool := pool self; idx := UINT_MAX |})).
Proof.
  intros [Hidx _].
  pose proof (insert_loop_post ITimer UINT_MAX (pool self) (idx self) false Hidx)
    as Hpost.
  unfold PawnTimerImpl.insert.
  destruct (PawnTimerImpl.insert_loop ITimer UINT_MAX (pool self) (idx self) false)
    as [r|r].
  - left. exists r. split; [exact Hpost|]. destruct Hpost as [Hfree [Hr _]].
    cbv zeta. rewrite (emplace_free ITimer _ _ _ Hfree). f_equal. f_equal.
    destruct (r =? UINT_MAX)%N eqn:E; [reflexivity|].
    apply N.eqb_neq in E. apply incr_below. lia.
  - right. destruct Hpost as [-> [_ Hall]]. split; [now apply Hall | reflexivity].
Qed.

(** With the cursor on a free key, that key is the one handed out. *)
Lemma insert_at_free_cursor (self : PawnTimerImpl ITimer) (timer : ITimer) :
  well_formed self -> pool self !! idx self = None ->
  insert self timer
  = (idx self, {| pool := <[idx self := timer]> (pool self);
                  idx := if (idx self =? UINT_MAX)%N then 0%N else (idx self + 1)%N |}).
Proof.
  intros Hwf Hfree.
  destruct (insert_cases self timer Hwf) as [[r [Hpost ->]] | [Hfull _]].
  - destruct Hpost as [_ [_ [[Hle Hbetween] | [_ [_ [Hup _]]]]]].
    + destruct (N.eq_dec r (idx self)) as [->|Hne]; [reflexivity|].
      destruct (Hbetween (idx self)) as [x Hx]; [lia | congruence].
    + destruct Hwf as [Hidx _].
      destruct (Hup (idx self)) as [x Hx]; [lia | congruence].
  - destruct Hwf as [Hidx _]. destruct (Hfull (idx self) Hidx) as [x Hx]. congruence.
Qed.

(** *** Invariants of [insert] *)

(** X8. [insert] keeps every key and the cursor within the [uint32_t]
    range, never touches an entry that was already in the pool, and adds
    exactly one entry unless the pool was full. *)
Theorem insert_keeps_the_pool_sound (self : PawnTimerImpl ITimer) (timer : ITimer) :
  well_formed self ->
  well_formed (insert self timer).2 /\
  (forall k x, pool self !! k = Some x -> pool (insert self timer).2 !! k = Some x) /\
  (~ full (pool self) -> size (pool (insert self timer).2) = S (size (pool self))) /\
  (full (pool self) -> pool (insert self timer).2 = pool self).
Proof.
  intros Hwf. pose proof Hwf as [Hidx Hkeys].
  destruct (insert_cases self timer Hwf) as [[r [Hpost ->]] | [Hfull ->]]; simpl.
  - destruct Hpost as [Hfree [Hr _]]. repeat split.
    + simpl. destruct (r =? UINT_MAX)%N eqn:E; [lia|]. apply N.eqb_neq in E. lia.
    + simpl. intros k [x Hx]. apply lookup_insert_Some in Hx as [[<- _] | [_ Hx]];
        [exact Hr | apply Hkeys; eauto].
    + intros k x Hx. rewrite lookup_insert_ne; [exact Hx | congruence].
    + intros _. now apply map_size_insert_None.
    + intros Hfull. destruct (Hfull r Hr) as [x Hx]. congruence.
  - split; [split; [simpl; lia | exact Hkeys]|].
    split; [auto|]. split; [contradiction | reflexivity].
Qed.

(** *** A fresh allocator counts from 1 *)

Lemma insert_all_from_cursor (timers : list ITimer) :
  forall (self : PawnTimerImpl ITimer),
  well_formed self ->
  (forall k, (idx self <= k)%N -> pool self !! k = None) ->
  (idx self + N.of_nat (length timers) <= UINT_MAX + 1)%N ->
  (insert_all self timers).1
    = (fun j => (idx self + N.of_nat j)%N) <$> seq 0 (length timers) /\
  (forall j timer, timers !! j = Some timer ->
     pool (insert_all self timers).2 !! (idx self + N.of_nat j)%N = Some timer) /\
  (forall k x, pool self !! k = Some x ->
     pool (insert_all self timers).2 !! k = Some x).
Proof.
  induction timers as [|timer rest IH]; intros self Hwf Hfree Hroom.
  - simpl. repeat split; auto. intros j timer Hl. discriminate Hl.
  - pose proof Hwf as [Hidx Hkeys].
    assert (Hcur : pool self !! idx self = None) by (apply Hfree; lia).
    pose proof (insert_at_free_cursor self timer Hwf Hcur) as Hins.
    cbn [PawnTimerImpl.insert_all]. cbv zeta. rewrite Hins. cbn [fst snd].
    destruct rest as [|timer' rest'].
    + simpl. rewrite N.add_0_r. repeat split.
      * intros [|j] t Hl; [|discriminate Hl]. injection Hl as <-.
        rewrite N.add_0_r. apply lookup_insert_eq.
      * intros k x Hx. rewrite lookup_insert_ne; [exact Hx | congruence].
    + assert (Hbelow : (idx self < UINT_MAX)%N) by (simpl in Hroom; lia).
      assert (Hnext : (idx self =? UINT_MAX)%N = false) by (apply N.eqb_neq; lia).
      rewrite Hnext.
      set (next := {| pool := <[idx self := timer]> (pool self);
                      idx := (idx self + 1)%N |}).
      destruct (IH next) as [Hres [Hlook Hkeep]].
      * split; [simpl; lia|]. simpl. intros k [x Hx].
        apply lookup_insert_Some in Hx as [[<- _] | [_ Hx]]; [lia | apply Hkeys; eauto].
      * simpl. intros k Hk. rewrite lookup_insert_ne by lia. apply Hfree. lia.
      * simpl in *. lia.
      * simpl idx in Hres, Hlook. repeat split.
        -- rewrite Hres. change (seq 0 (length (timer :: timer' :: rest')))
             with (0%nat :: seq 1 (length (timer' :: rest'))).
           rewrite fmap_cons, N.add_0_r. f_equal.
           rewrite <- fmap_S_seq, <- list_fmap_compose.
           apply list_fmap_ext. intros _ j _. simpl. lia.
        -- intros [|j] t Hl.
           ++ injection Hl as <-. rewrite N.add_0_r. apply Hkeep. simpl.
              apply lookup_insert_eq.
           ++ simpl in Hl. rewrite <- (Hlook j t Hl). f_equal. lia.
        -- intros k x Hx. apply Hkeep. simpl.
           rewrite lookup_insert_ne; [exact Hx | congruence].
Qed.

(** X9. The allocator as constructed hands out 1, 2, 3, ... in order,
    as long as no more than [UINT_MAX] timers are inserted and none is
    removed, and afterwards each of these keys holds the timer inserted
    under it; so the first [UINT_MAX] results are never 0. *)
Theorem fresh_allocator_counts_from_1 (timers : list ITimer) :
  (1 <= UINT_MAX)%N ->
  (N.of_nat (length timers) <= UINT_MAX)%N ->
  (insert_all initial timers).1 = N.of_nat <$> seq 1 (length timers) /\
  (forall j timer, timers !! j = Some timer ->
     pool (insert_all initial timers).2 !! N.of_nat (S j) = Some timer).
Proof.
  intros Hmax Hlen.
  destruct (insert_all_from_cursor timers initial) as [Hres [Hlook _]].
  - split; [simpl; lia|]. simpl. intros k [x Hx].
    rewrite lookup_empty in Hx. discriminate Hx.
  - intros k _. apply lookup_empty.
  - simpl. lia.
  - split.
    + rewrite Hres. rewrite <- fmap_S_seq, <- list_fmap_compose.
      apply list_fmap_ext. intros _ j _. simpl. lia.
    + intros j timer Hl. rewrite <- (Hlook j timer Hl). f_equal. simpl. lia.
Qed.

(** *** Removal and reuse *)

(** A pool with fewer than [UINT_MAX + 1] entries has a free key; the
    loop of [insert] itself finds one. *)
Lemma free_key_exists (p : gmap N ITimer) :
  (N.of_nat (size p) < UINT_MAX + 1)%N ->
  exists f, (f <= UINT_MAX)%N /\ p !! f = None.
Proof.
  intros Hsize.
  pose proof (insert_loop_post ITimer UINT_MAX p 0%N false ltac:(lia)) as Hpost.
  destruct (PawnTimerImpl.insert_loop ITimer UINT_MAX p 0 false) as [r|r].
  - destruct Hpost as [Hfree [Hr _]]. eauto.
  - destruct Hpost as [_ [_ Hall]].
    pose proof (full_size ITimer UINT_MAX p (Hall eq_refl)). lia.
Qed.

(** A pool whose keys are all among the first [n] has at most [n]
    entries. *)
Lemma size_le_keys n : forall m : gmap N ITimer,
  (forall k, is_Some (m !! k) -> (k < N.of_nat n)%N) -> (size m <= n)%nat.
Proof.
  induction n as [|n IH]; intros m Hkeys.
  - assert (m = ∅) as ->; [|now rewrite map_size_empty].
    apply map_empty. intros k. destruct (m !! k) as [x|] eqn:E; [|reflexivity].
    assert (k < N.of_nat 0)%N by (apply Hkeys; eauto). lia.
  - assert (Hrest : (size (delete (N.of_nat n) m) <= n)%nat).
    { apply IH. intros k Hk.
      destruct (N.eq_dec (N.of_nat n) k) as [<-|Hne].
      - rewrite lookup_delete_eq in Hk. now destruct Hk.
      - rewrite lookup_delete_ne in Hk by exact Hne.
        apply Hkeys in Hk. lia. }
    rewrite map_size_delete in Hrest.
    destruct (m !! N.of_nat n); simpl in Hrest; lia.
Qed.

Lemma well_formed_size (self : PawnTimerImpl ITimer) :
  well_formed self -> (N.of_nat (size (pool self)) <= UINT_MAX + 1)%N.
Proof.
  intros [_ Hkeys].
  assert (size (pool self) <= N.to_nat (UINT_MAX + 1))%nat; [|lia].
  apply size_le_keys. intros k Hk. apply Hkeys in Hk. lia.
Qed.

(** X10. On a pool that is not full, removing the timer that was just
    inserted answers true and gives back the pool as it was, but not the
    cursor, which stays behind the removed key: when another key was free
    as well the next [insert] hands out a different index, and when the
    removed key is the only free one the search comes round to it and the
    same index is handed out again. On a full pool there is no round trip:
    [insert] answers 0 without storing anything, and [remove] of that
    result erases the timer that was stored under key 0. *)
Theorem removed_index_is_not_reused_at_once
    (self : PawnTimerImpl ITimer) (timer timer' : ITimer) :
  well_formed self ->
  let inserted := insert self timer in
  let removed := remove inserted.2 inserted.1 in
  (~ full (pool self) ->
     removed.1 = true /\
     pool removed.2 = pool self /\
     idx removed.2 = (if (inserted.1 =? UINT_MAX)%N then 0 else inserted.1 + 1)%N /\
     ((N.of_nat (size (pool self)) < UINT_MAX)%N ->
        (insert removed.2 timer').1 <> inserted.1) /\
     ((N.of_nat (size (pool self)) = UINT_MAX)%N ->
        (insert removed.2 timer').1 = inserted.1)) /\
  (full (pool self) ->
     inserted.1 = 0%N /\
     pool inserted.2 = pool self /\
     removed.1 = true /\
     pool removed.2 = delete 0%N (pool self) /\
     pool removed.2 !! 0%N = None /\
     is_Some (pool self !! 0%N)).
Proof.
  intros Hwf inserted removed. pose proof Hwf as [Hidx Hkeys]. split.
  - intros Hroom.
    destruct (insert_cases self timer Hwf) as [[r [Hpost Hins]] | [Hfull _]];
      [|contradiction].
    destruct Hpost as [Hfree [Hr _]].
    assert (Hfirst : inserted.1 = r) by (unfold inserted; now rewrite Hins).
    assert (Hpool : pool removed.2 = pool self).
    { unfold removed, inserted. rewrite Hins. simpl. now apply delete_insert_id. }
    assert (Hcursor : idx removed.2 = if (r =? UINT_MAX)%N then 0%N else (r + 1)%N).
    { unfold removed, inserted. now rewrite Hins. }
    assert (Hwf' : well_formed removed.2).
    { split; [|rewrite Hpool; exact Hkeys]. rewrite Hcursor.
      destruct (r =? UINT_MAX)%N eqn:E; [lia|]. apply N.eqb_neq in E. lia. }
    rewrite Hfirst.
    split; [|split; [exact Hpool | split; [exact Hcursor | split]]].
    + unfold removed, inserted. rewrite Hins. simpl.
      apply bool_decide_eq_true. rewrite lookup_insert_eq. eauto.
    + (* another free key *)
      intros Hsize.
      destruct (free_key_exists (<[r := timer]> (pool self))) as [f [Hf Hffree]].
      { rewrite map_size_insert_None by exact Hfree. lia. }
      apply lookup_insert_None in Hffree as [Hffree Hfr].
      (* the second search starts behind [r] and meets [f] first *)
      destruct (insert_cases removed.2 timer' Hwf') as [[r' [Hpost' ->]] | [Hfull' _]].
      * simpl. intros ->. rewrite Hpool, Hcursor in Hpost'.
        destruct Hpost' as [_ [_ Hwalk]].
        destruct (r =? UINT_MAX)%N eqn:E.
        -- apply N.eqb_eq in E. subst r.
           destruct Hwalk as [[_ Hbetween] | [_ [Hlt _]]]; [|lia].
           destruct (Hbetween f) as [x Hx]; [lia | congruence].
        -- apply N.eqb_neq in E.
           destruct Hwalk as [[Hle _] | [_ [_ [Hup Hlow]]]]; [lia|].
           destruct (N.lt_ge_cases f r) as [Hlt | Hge].
           ++ destruct (Hlow f Hlt) as [x Hx]. congruence.
           ++ destruct (Hup f) as [x Hx]; [lia | congruence].
      * rewrite Hpool in Hfull'. destruct (Hfull' r Hr) as [x Hx]. congruence.
    + (* [r] is the only free key *)
      intros Hsize.
      destruct (insert_cases removed.2 timer' Hwf') as [[r' [Hpost' ->]] | [Hfull' _]].
      * simpl. rewrite Hpool in Hpost'. destruct Hpost' as [Hfree' [Hr' _]].
        destruct (N.eq_dec r' r) as [|Hne]; [assumption|]. exfalso.
        set (both := {| pool := <[r' := timer]> (<[r := timer]> (pool self));
                        idx := idx self |}).
        assert (Hboth : well_formed both).
        { split; [exact Hidx|]. simpl. intros k [x Hx].
          apply lookup_insert_Some in Hx as [[<- _] | [_ Hx]]; [exact Hr'|].
          apply lookup_insert_Some in Hx as [[<- _] | [_ Hx]]; [exact Hr|].
          apply Hkeys. eauto. }
        apply well_formed_size in Hboth. simpl in Hboth.
        rewrite map_size_insert_None in Hboth
          by (rewrite lookup_insert_ne by congruence; exact Hfree').
        rewrite map_size_insert_None in Hboth by exact Hfree. lia.
      * rewrite Hpool in Hfull'. destruct (Hfull' r Hr) as [x Hx]. congruence.
  - intros Hfull.
    destruct (insert_cases self timer Hwf) as [[r [Hpost _]] | [_ Hins]].
    { destruct Hpost as [Hfree [Hr _]]. destruct (Hfull r Hr) as [x Hx]. congruence. }
    assert (Hzero : is_Some (pool self !! 0%N)) by (apply Hfull; lia).
    unfold removed, inserted. rewrite Hins. simpl.
    repeat split; try exact Hzero.
    + now apply bool_decide_eq_true.
    + apply lookup_delete_eq.
Qed.

(** *** The result 0 *)

(** X11. The result 0 does not tell a failure from a success: when
    every key from the cursor up to [UINT_MAX] is taken and key 0 is
    free, [insert] wraps around, stores the timer under key 0 and
    returns 0, the value it also returns when the pool is full. *)
Theorem zero_is_also_a_valid_index (self : PawnTimerImpl ITimer) (timer : ITimer) :
  well_formed self ->
  (forall k, (idx self <= k <= UINT_MAX)%N -> is_Some (pool self !! k)) ->
  pool self !! 0%N = None ->
  (insert self timer).1 = 0%N /\
  pool (insert self timer).2 = <[0%N := timer]> (pool self) /\
  idx (insert self timer).2 = (if (0 =? UINT_MAX)%N then 0 else 1)%N.
Proof.
  intros Hwf Htaken Hzero.
  destruct (insert_cases self timer Hwf) as [[r [Hpost ->]] | [Hfull _]].
  - destruct Hpost as [Hfree [Hr [[Hle _] | [_ [_ [_ Hlow]]]]]].
    + destruct (Htaken r) as [x Hx]; [lia | congruence].
    + assert (r = 0%N) as ->.
      { destruct (N.eq_dec r 0%N) as [|Hne]; [assumption|].
        destruct (Hlow 0%N) as [x Hx]; [lia | congruence]. }
      simpl. repeat split.
  - destruct (Hfull 0%N) as [x Hx]; [lia | congruence].
Qed.

End Timers.

(** *** Instances *)

Lemma insert_keeps_the_pool_sound_witness :
  well_formed nat 4294967295
    (insert nat 4294967295 (initial nat) 7%nat).2.
Proof.
  assert (Hwf : well_formed nat 4294967295 (initial nat)).
  { split; [simpl; lia|]. simpl. intros k [x Hx].
    rewrite lookup_empty in Hx. discriminate Hx. }
  exact (proj1 (insert_keeps_the_pool_sound nat 4294967295 (initial nat) 7%nat Hwf)).
Defined.

Lemma fresh_allocator_counts_from_1_witness :
  (insert_all nat 4294967295 (initial nat) [7; 8; 9]%nat).1 = [1; 2; 3]%N.
Proof.
  assert (Hmax : (1 <= 4294967295)%N) by lia.
  assert (Hlen : (N.of_nat (length [7; 8; 9]%nat) <= 4294967295)%N) by (simpl; lia).
  exact (proj1 (fresh_allocator_counts_from_1 nat 4294967295 [7; 8; 9]%nat Hmax Hlen)).
Defined.

(** The allocator as constructed: index 1 is handed out, removed, and
    the next index is not 1. With one-bit identifiers, key 0 taken and the
    cursor on 1, key 1 is the only free one and is handed out twice. *)
Lemma removed_index_is_not_reused_at_once_witness :
  (let inserted := insert nat 4294967295 (initial nat) 7%nat in
   let removed := remove nat inserted.2 inserted.1 in
   removed.1 = true /\ pool removed.2 = pool (initial nat) /\
   (insert nat 4294967295 removed.2 8%nat).1 <> inserted.1) /\
  (let tiny := {| pool := <[0%N := 5%nat]> ∅; idx := 1 |} in
   let inserted := insert nat 1 tiny 7%nat in
   let removed := remove nat inserted.2 inserted.1 in
   removed.1 = true /\ pool removed.2 = pool tiny /\
   (insert nat 1 removed.2 8%nat).1 = inserted.1).
Proof.
  split.
  - assert (Hwf : well_formed nat 4294967295 (initial nat)).
    { split; [simpl; lia|]. simpl. intros k [x Hx].
      rewrite lookup_empty in Hx. discriminate Hx. }
    assert (Hroom : ~ full nat 4294967295 (pool (initial nat))).
    { intros Hfull. destruct (Hfull 0%N) as [x Hx]; [lia|].
      simpl in Hx. rewrite lookup_empty in Hx. discriminate Hx. }
    assert (Hsize : (N.of_nat (size (pool (initial nat))) < 4294967295)%N)
      by (simpl; rewrite map_size_empty; lia).
    destruct (proj1 (removed_index_is_not_reused_at_once nat 4294967295
                       (initial nat) 7%nat 8%nat Hwf) Hroom)
      as [Htrue [Hpool [_ [Hother _]]]].
    cbv zeta. split; [exact Htrue | split; [exact Hpool | exact (Hother Hsize)]].
  - set (tiny := {| pool := <[0%N := 5%nat]> (∅ : gmap N nat); idx := 1 |}).
    assert (Hwf : well_formed nat 1 tiny).
    { split; [simpl; lia|]. simpl. intros k [x Hx].
      apply lookup_insert_Some in Hx as [[<- _] | [_ Hx]]; [lia|].
      rewrite lookup_empty in Hx. discriminate Hx. }
    assert (Hroom : ~ full nat 1 (pool tiny)).
    { intros Hfull. destruct (Hfull 1%N) as [x Hx]; [lia|].
      simpl in Hx. rewrite lookup_insert_ne in Hx by lia.
      rewrite lookup_empty in Hx. discriminate Hx. }
    assert (Hsize : (N.of_nat (size (pool tiny)) = 1)%N).
    { simpl. rewrite map_size_insert_None by apply lookup_empty.
      now rewrite map_size_empty. }
    destruct (proj1 (removed_index_is_not_reused_at_once nat 1
                       tiny 7%nat 8%nat Hwf) Hroom)
      as [Htrue [Hpool [_ [_ Hsame]]]].
    cbv zeta. split; [exact Htrue | split; [exact Hpool | exact (Hsame Hsize)]].
Defined.

(** Two-bit identifiers, keys 2 and 3 taken, the cursor on 2. *)
Lemma zero_is_also_a_valid_index_witness :
  (insert nat 3 {| pool := <[3%N := 5%nat]> (<[2%N := 5%nat]> ∅); idx := 2 |} 9%nat).1
  = 0%N.
Proof.
  set (self := {| pool := <[3%N := 5%nat]> (<[2%N := 5%nat]> (∅ : gmap N nat));
                  idx := 2 |}).
  assert (Hwf : well_formed nat 3 self).
  { split; [simpl; lia|]. simpl. intros k [x Hx].
    apply lookup_insert_Some in Hx as [[<- _] | [_ Hx]]; [lia|].
    apply lookup_insert_Some in Hx as [[<- _] | [_ Hx]]; [lia|].
    rewrite lookup_empty in Hx. discriminate Hx. }
  assert (Htaken : forall k, (idx self <= k <= 3)%N -> is_Some (pool self !! k)).
  { simpl. intros k Hk.
    destruct (N.eq_dec k 3%N) as [->|Hne]; [rewrite lookup_insert_eq; eauto|].
    assert (k = 2%N) as -> by lia.
    rewrite lookup_insert_ne by lia. rewrite lookup_insert_eq. eauto. }
  exact (proj1 (zero_is_also_a_valid_index nat 3 self 9%nat Hwf Htaken eq_refl)).
Defined.

End PawnTimerImplExtra.

(** ** The sweep as a whole *)

Module GangZonesExtra.
Import GangZones GangZonesSpec.

(** *** The events of a sweep *)

Lemma onUpdate_entry_dispatch self player i :
  (onUpdate_entry self player (getPosition player) i).1 = zone_dispatch self player i.
Proof.
  unfold onUpdate_entry, zone_dispatch, pair_dispatch.
  destruct (get self i) as [z|]; [|reflexivity]. cbv zeta.
  entry_cases z player (getPosition player); reflexivity.
Qed.

(** An entry that dispatches nothing changes nothing. *)
Lemma onUpdate_entry_quiet self player i :
  zone_dispatch self player i = [] ->
  onUpdate_entry self player (getPosition player) i = ([], self).
Proof.
  unfold onUpdate_entry, zone_dispatch, pair_dispatch.
  destruct (get self i) as [z|]; [|reflexivity]. cbv zeta.
  entry_cases z player (getPosition player);
    first [reflexivity | discriminate].
Qed.

(** Each entry decides on the zone as it stood before the sweep: the
    entries before it did not touch its slot. *)
Lemma onUpdate_loop_dispatch player entries : forall self0 self,
  NoDup entries ->
  (forall j, j ∈ entries -> get self j = get self0 j) ->
  (onUpdate_loop self player (getPosition player) entries).1
  = entries ≫= zone_dispatch self0 player.
Proof.
  induction entries as [|i entries IH]; intros self0 self Hnodup Hsame;
    [reflexivity|].
  apply NoDup_cons in Hnodup as [Hfresh Hnodup].
  cbn [onUpdate_loop]. cbv zeta. cbn [fst]. rewrite bind_cons. f_equal.
  - rewrite onUpdate_entry_dispatch. unfold zone_dispatch.
    now rewrite (Hsame i (list_elem_of_here _ _)).
  - apply IH; [exact Hnodup|]. intros j Hj.
    rewrite onUpdate_entry_get_other by (intros ->; contradiction).
    apply Hsame. now apply list_elem_of_further.
Qed.

Lemma onUpdate_dispatch self player :
  (onUpdate self player).1
  = elements (checkingList self) ≫= zone_dispatch self player.
Proof.
  unfold onUpdate, UniqueIDArray.entries.
  apply onUpdate_loop_dispatch; [apply NoDup_elements | reflexivity].
Qed.

Lemma pair_dispatch_elem z player i e :
  e ∈ pair_dispatch z player i <->
  isShownForPlayer z player = true /\
  (isPlayerInZoneArea (getPosition player) (pos z) = true /\
   isPlayerInside z player = false /\
   e = onPlayerEnterGangZone player i (setPlayerInside z player true) \/
   isPlayerInZoneArea (getPosition player) (pos z) = false /\
   isPlayerInside z player = true /\
   e = onPlayerLeaveGangZone player i (setPlayerInside z player false)).
Proof.
  unfold pair_dispatch. cbv zeta.
  destruct (isShownForPlayer z player),
    (isPlayerInZoneArea (getPosition player) (pos z)),
    (isPlayerInside z player); simpl;
    rewrite ?list_elem_of_singleton, ?elem_of_nil;
    intuition congruence.
Qed.

Lemma zone_dispatch_ids self player i :
  event_zoneID <$> zone_dispatch self player i = [] \/
  event_zoneID <$> zone_dispatch self player i = [i].
Proof.
  unfold zone_dispatch, pair_dispatch. destruct (get self i) as [z|]; [|now left].
  cbv zeta. entry_cases z player (getPosition player); auto.
Qed.

Lemma dispatched_ids player self0 entries :
  NoDup entries ->
  NoDup (event_zoneID <$> (entries ≫= zone_dispatch self0 player)) /\
  forall id, id ∈ event_zoneID <$> (entries ≫= zone_dispatch self0 player) ->
             id ∈ entries.
Proof.
  induction entries as [|i entries IH]; intros Hnodup.
  - split; [constructor | intros id Hid; exact Hid].
  - apply NoDup_cons in Hnodup as [Hfresh Hnodup].
    destruct (IH Hnodup) as [Hnd Hsub].
    rewrite bind_cons, fmap_app.
    destruct (zone_dispatch_ids self0 player i) as [-> | ->]; simpl.
    + split; [exact Hnd|]. intros id Hid. apply list_elem_of_further. now apply Hsub.
    + split.
      * apply NoDup_cons. split; [|exact Hnd]. intros Hin. apply Hfresh. now apply Hsub.
      * intros id Hid. apply elem_of_cons in Hid as [-> | Hid];
          [apply list_elem_of_here | apply list_elem_of_further; now apply Hsub].
Qed.

(** *** Subscribers that leave the component alone *)

Lemma dispatch_inert subscribers event : forall self,
  Forall inert subscribers -> dispatch subscribers event self = self.
Proof.
  induction subscribers as [|subscriber subscribers IH]; intros self Hinert;
    [reflexivity|].
  apply Forall_cons in Hinert as [Hfirst Hinert]. simpl.
  rewrite Hfirst. now apply IH.
Qed.

Lemma transition_with_inert subscribers self player i z status handler :
  Forall inert subscribers ->
  transition_with subscribers self player i z status handler
  = transition self player i z status handler.
Proof.
  intros Hinert. unfold transition_with, transition, ScopedPoolReleaseLock.
  cbv zeta. cbn [fst snd]. now rewrite dispatch_inert.
Qed.

Lemma onUpdate_entry_with_inert subscribers self player playerPos i :
  Forall inert subscribers ->
  onUpdate_entry_with subscribers self player playerPos i
  = onUpdate_entry self player playerPos i.
Proof.
  intros Hinert. unfold onUpdate_entry_with, onUpdate_entry.
  destruct (get self i) as [z|]; [|reflexivity].
  now rewrite !transition_with_inert.
Qed.

Lemma onUpdate_loop_with_inert subscribers player playerPos entries : forall self,
  Forall inert subscribers ->
  onUpdate_loop_with subscribers self player playerPos entries
  = onUpdate_loop self player playerPos entries.
Proof.
  induction entries as [|i entries IH]; intros self Hinert; [reflexivity|].
  cbn [onUpdate_loop_with onUpdate_loop]. cbv zeta.
  rewrite onUpdate_entry_with_inert by exact Hinert.
  now rewrite IH.
Qed.

(** With subscribers that leave the component alone, the sweep is the
    one of the component on its own. *)
Lemma onUpdate_with_inert subscribers self player :
  Forall inert subscribers ->
  onUpdate_with subscribers self player = onUpdate self player.
Proof. intros Hinert. now apply onUpdate_loop_with_inert. Qed.

Lemma onUpdate_events_iff (self : GangZonesComponent) (player : IPlayer) :
  (forall e, e ∈ (onUpdate self player).1 <->
     exists i z,
       i ∈ checkingList self /\ get self i = Some z /\
       isShownForPlayer z player = true /\
       (isPlayerInZoneArea (getPosition player) (pos z) = true /\
        isPlayerInside z player = false /\
        e = onPlayerEnterGangZone player i (setPlayerInside z player true) \/
        isPlayerInZoneArea (getPosition player) (pos z) = false /\
        isPlayerInside z player = true /\
        e = onPlayerLeaveGangZone player i (setPlayerInside z player false))) /\
  NoDup (event_zoneID <$> (onUpdate self player).1).
Proof.
  rewrite onUpdate_dispatch. split.
  - intros e. rewrite list_elem_of_bind. split.
    + intros [i [He Hi]]. apply elem_of_elements in Hi.
      unfold zone_dispatch in He. destruct (get self i) as [z|] eqn:Hz;
        [|now apply elem_of_nil in He].
      apply pair_dispatch_elem in He as [Hshown Hcase].
      exists i, z. auto.
    + intros [i [z [Hi [Hz [Hshown Hcase]]]]]. exists i.
      split; [|now apply elem_of_elements].
      unfold zone_dispatch. rewrite Hz. apply pair_dispatch_elem. auto.
  - apply dispatched_ids, NoDup_elements.
Qed.

(** X12. When no subscriber changes the component during a dispatch,
    what a sweep dispatches is decided by the zones as they stood before
    it: an event is dispatched exactly when it is the enter event of a
    checked, live zone shown for the player whose rectangle contains the
    player while the player is not recorded inside, or the leave event of
    such a zone that does not contain the player while the player is
    recorded inside. No zone gets more than one event in a sweep. *)
Theorem sweep_events_are_decided_by_the_zones_before
    (subscribers : list Subscriber)
    (self : GangZonesComponent) (player : IPlayer) :
  Forall inert subscribers ->
  (forall e, e ∈ (onUpdate_with subscribers self player).1 <->
     exists i z,
       i ∈ checkingList self /\ get self i = Some z /\
       isShownForPlayer z player = true /\
       (isPlayerInZoneArea (getPosition player) (pos z) = true /\
        isPlayerInside z player = false /\
        e = onPlayerEnterGangZone player i (setPlayerInside z player true) \/
        isPlayerInZoneArea (getPosition player) (pos z) = false /\
        isPlayerInside z player = true /\
        e = onPlayerLeaveGangZone player i (setPlayerInside z player false))) /\
  NoDup (event_zoneID <$> (onUpdate_with subscribers self player).1).
Proof.
  intros Hinert. rewrite (onUpdate_with_inert subscribers self player Hinert).
  apply onUpdate_events_iff.
Qed.

(** *** Zones outside the checking list *)

Lemma zone_dispatch_zone self player j :
  Forall (fun e => event_zoneID e = j) (zone_dispatch self player j).
Proof.
  unfold zone_dispatch. destruct (get self j) as [z|]; [|constructor].
  eapply Forall_impl; [apply pair_dispatch_events|]. now intros e [_ He].
Qed.

(** No event is about a zone that is unchecked or not live. *)
Lemma onUpdate_silent_about self player i :
  i ∉ checkingList self \/ get self i = None ->
  Forall (fun e => event_zoneID e <> i) (onUpdate self player).1.
Proof.
  intros Hwhy. rewrite onUpdate_dispatch. apply Forall_bind, Forall_forall.
  intros j Hj. apply elem_of_elements in Hj.
  change (Forall (fun e => event_zoneID e <> i) (zone_dispatch self player j)).
  destruct (decide (j = i)) as [Heq|Hne].
  - subst j. destruct Hwhy as [Hout | Hdead]; [contradiction|].
    unfold zone_dispatch. rewrite Hdead. constructor.
  - eapply Forall_impl; [apply zone_dispatch_zone|]. intros e ->. exact Hne.
Qed.

Lemma release_not_checked self i z :
  get self i = Some z -> i ∉ checkingList (release self i).
Proof.
  intros Hz. unfold release, UniqueIDArray.valid, UniqueIDArray.remove.
  rewrite Hz. simpl. case_bool_decide as Hin; [|exact Hin].
  intros [_ Hn]%elem_of_difference. apply Hn. now apply elem_of_singleton.
Qed.

Lemma release_dead self i : get self i = None -> release self i = self.
Proof. intros Hz. unfold release. now rewrite Hz. Qed.

(** X13. Only checked zones are swept. A zone outside the checking list
    gets no event and its slot is not touched, whatever the position of
    the player and whatever is recorded; this holds in particular right
    after [useGangZoneCheck(zone, false)] and right after [release], even
    when the release is deferred and the zone is still live. *)
Theorem unchecked_zone_is_not_swept
    (self : GangZonesComponent) (i : Z) (player : IPlayer) :
  (i ∉ checkingList self ->
     Forall (fun e => event_zoneID e <> i) (onUpdate self player).1 /\
     slot_of (storage (onUpdate self player).2) i = slot_of (storage self) i) /\
  (Forall (fun e => event_zoneID e <> i)
     (onUpdate (useGangZoneCheck self i false) player).1 /\
   get (onUpdate (useGangZoneCheck self i false) player).2 i = get self i) /\
  Forall (fun e => event_zoneID e <> i) (onUpdate (release self i) player).1.
Proof.
  assert (Hout : forall s, i ∉ checkingList s ->
            Forall (fun e => event_zoneID e <> i) (onUpdate s player).1 /\
            slot_of (storage (onUpdate s player).2) i = slot_of (storage s) i).
  { intros s Hs. split; [apply onUpdate_silent_about; now left|].
    unfold onUpdate, UniqueIDArray.entries.
    apply (onUpdate_loop_frame player (getPosition player) (getID player) i).
    now rewrite elem_of_elements. }
  assert (Hoff : i ∉ checkingList (useGangZoneCheck self i false)).
  { unfold useGangZoneCheck, UniqueIDArray.valid, UniqueIDArray.remove. simpl.
    case_bool_decide as Hin; [|exact Hin].
    intros [_ Hn]%elem_of_difference. apply Hn. now apply elem_of_singleton. }
  split; [apply Hout|]. split.
  - destruct (Hout _ Hoff) as [Hev Hslot]. split; [exact Hev|].
    unfold get, storage_get. now rewrite Hslot.
  - apply onUpdate_silent_about.
    destruct (get self i) as [z|] eqn:Hz.
    + left. now apply (release_not_checked self i z).
    + right. now rewrite (release_dead self i Hz).
Qed.

(** *** What a sweep leaves behind *)

Lemma pair_next_frame z player :
  pos (pair_next z player) = pos z /\
  shownFor_ (pair_next z player) = shownFor_ z /\
  forall q, q <> getID player ->
    (q ∈ playersInside_ (pair_next z player) <-> q ∈ playersInside_ z).
Proof.
  unfold pair_next. cbv zeta.
  entry_cases z player (getPosition player); simpl;
    repeat split; try tauto; intros Hq.
  - apply elem_of_union in Hq as [Hq | Hq]; [exact Hq|].
    apply elem_of_singleton in Hq. contradiction.
  - apply elem_of_union. now left.
  - now apply elem_of_difference in Hq as [Hq _].
  - apply elem_of_difference. split; [exact Hq|].
    intros Hs. apply elem_of_singleton in Hs. contradiction.
Qed.

(** After its visit a zone is settled: the same player at the same
    position gets nothing more from it. *)
Lemma pair_next_settled z player i :
  pair_dispatch (pair_next z player) player i = [].
Proof.
  destruct (isShownForPlayer z player) eqn:Hs,
    (isPlayerInZoneArea (getPosition player) (pos z)) eqn:Ha,
    (isPlayerInside z player) eqn:Hi;
    unfold pair_next; rewrite Hs, Ha, Hi; simpl;
    try (apply pair_stay; simpl; now rewrite ?Ha, ?Hi);
    try (unfold pair_dispatch; now rewrite Hs).
  - apply pair_stay. simpl. rewrite Ha. symmetry. now apply isPlayerInside_set.
  - apply pair_stay. simpl. rewrite Ha. symmetry. now apply isPlayerInside_set.
Qed.

Lemma onUpdate_loop_dead player playerPos i entries : forall self,
  get self i = None ->
  slot_of (storage (onUpdate_loop self player playerPos entries).2) i
  = slot_of (storage self) i.
Proof.
  induction entries as [|j entries IH]; intros self Hdead; [reflexivity|].
  cbn [onUpdate_loop]. cbv zeta. cbn [snd].
  destruct (decide (j = i)) as [->|Hne].
  - assert (Hskip : onUpdate_entry self player playerPos i = ([], self))
      by (unfold onUpdate_entry; now rewrite Hdead).
    rewrite Hskip. now apply IH.
  - rewrite IH.
    + now apply onUpdate_entry_other.
    + unfold get, storage_get in *. now rewrite onUpdate_entry_other.
Qed.

Lemma onUpdate_loop_quiet player entries : forall self,
  (forall j, j ∈ entries -> zone_dispatch self player j = []) ->
  onUpdate_loop self player (getPosition player) entries = ([], self).
Proof.
  induction entries as [|j entries IH]; intros self Hquiet; [reflexivity|].
  cbn [onUpdate_loop]. cbv zeta.
  rewrite (onUpdate_entry_quiet self player j (Hquiet j (list_elem_of_here _ _))).
  cbn [fst snd]. rewrite IH; [reflexivity|].
  intros k Hk. apply Hquiet. now apply list_elem_of_further.
Qed.

Lemma onUpdate_twice (self : GangZonesComponent) (player : IPlayer) :
  pool_ok self ->
  onUpdate (onUpdate self player).2 player = ([], (onUpdate self player).2).
Proof.
  intros Hok. set (once := (onUpdate self player).2).
  unfold onUpdate at 1. apply onUpdate_loop_quiet.
  intros i Hi. unfold UniqueIDArray.entries in Hi. apply elem_of_elements in Hi.
  assert (Hlist : checkingList once = checkingList self)
    by apply onUpdate_loop_checkingList.
  rewrite Hlist in Hi. unfold zone_dispatch.
  destruct (get self i) as [z|] eqn:Hz.
  - apply storage_get_Some in Hz as [s [Hs Hzs]].
    destruct (onUpdate_pair self player i s z Hi Hs Hzs (Hok i s Hs)) as [_ [Hslot _]].
    fold once in Hslot. unfold get. rewrite (storage_get_slot _ _ _ Hslot). simpl.
    apply pair_next_settled.
  - assert (Hslot : slot_of (storage once) i = slot_of (storage self) i)
      by (apply onUpdate_loop_dead; exact Hz).
    unfold get, storage_get in *. now rewrite Hslot, Hz.
Qed.

(** X14. When no subscriber changes the component during a dispatch and
    no slot is pending destruction while unlocked, a sweep settles every
    checked zone: run again for the same player at the same position,
    [onUpdate] dispatches nothing and leaves the component as the first
    sweep left it. *)
Theorem second_sweep_is_silent
    (subscribers : list Subscriber)
    (self : GangZonesComponent) (player : IPlayer) :
  Forall inert subscribers ->
  pool_ok self ->
  onUpdate_with subscribers (onUpdate_with subscribers self player).2 player
  = ([], (onUpdate_with subscribers self player).2).
Proof.
  intros Hinert Hok. rewrite !onUpdate_with_inert by exact Hinert.
  now apply onUpdate_twice.
Qed.

Lemma onUpdate_frame
    (self : GangZonesComponent) (player : IPlayer) (i : Z) (s : Slot) (z : GangZone) :
  slot_of (storage self) i = Some s -> entity s = Some z ->
  pending_is_locked s ->
  checkingList (onUpdate self player).2 = checkingList self /\
  exists z',
    slot_of (storage (onUpdate self player).2) i
      = Some {| entity := Some z'; refs := refs s; deleted := deleted s |} /\
    pos z' = pos z /\ shownFor_ z' = shownFor_ z /\
    forall q, q <> getID player -> (q ∈ playersInside_ z' <-> q ∈ playersInside_ z).
Proof.
  intros Hs Hz Hpend. split; [apply onUpdate_loop_checkingList|].
  destruct (decide (i ∈ checkingList self)) as [Hin | Hout].
  - destruct (onUpdate_pair self player i s z Hin Hs Hz Hpend) as [_ [Hslot _]].
    exists (pair_next z player). split; [exact Hslot | apply pair_next_frame].
  - exists z. split; [|repeat split; tauto].
    unfold onUpdate, UniqueIDArray.entries.
    destruct (onUpdate_loop_frame player (getPosition player) (getID player) i
                (elements (checkingList self)) self) as [_ ->];
      [now rewrite elem_of_elements|].
    rewrite Hs. f_equal. destruct s. simpl in *. now subst.
Qed.

(** X15. When no subscriber changes the component during a dispatch, a
    sweep for one player changes nothing but what is recorded about that
    player: the checking list is as before and, for a live zone whose slot
    is not pending destruction while unlocked, so are the lock counter and
    the pending flag of the slot, the rectangle and the visibility of the
    zone and the memberships of all other players. *)
Theorem sweep_only_moves_the_players_flag
    (subscribers : list Subscriber)
    (self : GangZonesComponent) (player : IPlayer) (i : Z) (s : Slot) (z : GangZone) :
  Forall inert subscribers ->
  slot_of (storage self) i = Some s -> entity s = Some z ->
  pending_is_locked s ->
  checkingList (onUpdate_with subscribers self player).2 = checkingList self /\
  exists z',
    slot_of (storage (onUpdate_with subscribers self player).2) i
      = Some {| entity := Some z'; refs := refs s; deleted := deleted s |} /\
    pos z' = pos z /\ shownFor_ z' = shownFor_ z /\
    forall q, q <> getID player -> (q ∈ playersInside_ z' <-> q ∈ playersInside_ z).
Proof.
  intros Hinert. rewrite (onUpdate_with_inert subscribers self player Hinert).
  apply onUpdate_frame.
Qed.

(** *** A subscriber that releases the zone it is called about *)





(** *** Instances on the example world *)

Lemma idle_inert : Forall inert [idle; idle].
Proof. repeat constructor. Qed.

Lemma example_pool_ok : pool_ok example_component.
Proof.
  intros i s Hs Hdel. apply slot_of_Some in Hs as [_ [Hl _]]. simpl in Hl.
  destruct (Z.to_nat i) as [|n]; [|discriminate Hl].
  injection Hl as <-. discriminate Hdel.
Qed.

(** Player 7 inside the square: the enter event of zone 0 is dispatched. *)
Lemma sweep_events_are_decided_by_the_zones_before_witness :
  (onPlayerEnterGangZone (player7 inside_square) 0
     (setPlayerInside example_zone (player7 inside_square) true)
   ∈ (onUpdate_with [idle; idle] example_component (player7 inside_square)).1) /\
  NoDup (event_zoneID <$>
           (onUpdate_with [idle; idle] example_component (player7 inside_square)).1).
Proof.
  destruct (sweep_events_are_decided_by_the_zones_before [idle; idle]
              example_component (player7 inside_square) idle_inert)
    as [Hiff Hnodup].
  split; [|exact Hnodup].
  apply Hiff. exists 0%Z, example_zone.
  split; [simpl; now apply elem_of_singleton|].
  split; [reflexivity|].
  split; [reflexivity|].
  left. repeat split.
Defined.

Lemma second_sweep_is_silent_witness :
  onUpdate_with [idle; idle]
    (onUpdate_with [idle; idle] example_component (player7 inside_square)).2
    (player7 inside_square)
  = ([], (onUpdate_with [idle; idle] example_component (player7 inside_square)).2).
Proof.
  exact (second_sweep_is_silent [idle; idle] example_component
           (player7 inside_square) idle_inert example_pool_ok).
Defined.

Lemma sweep_only_moves_the_players_flag_witness :
  checkingList (onUpdate_with [idle; idle] example_component (player7 inside_square)).2
  = checkingList example_component.
Proof.
  assert (Hpend : pending_is_locked
                    {| entity := Some example_zone; refs := 0; deleted := false |})
    by (intros Hdel; discriminate Hdel).
  exact (proj1 (sweep_only_moves_the_players_flag [idle; idle] example_component
                  (player7 inside_square) 0
                  {| entity := Some example_zone; refs := 0; deleted := false |}
                  example_zone idle_inert eq_refl eq_refl Hpend)).
Defined.


End GangZonesExtra.
